(** * Maximum pairwise AND (src/02_bit_manipulation/04_max_AND.cpp)

    A shallow embedding of [maxAndPair] and the properties of its greedy
    bit construction.  The C++ [int] is a 32-bit two's complement integer;
    it is modelled by the [Z] of its signed value.  On such values [&] and
    [|] are [Z.land] and [Z.lor] (Rocq's bitwise operations on [Z] work on
    the infinite two's complement expansion, which agrees with the 32-bit
    one on the signed range), and an arithmetic result that may leave the
    range is wrapped by [wrap32]. *)

From Stdlib Require Import Ascii String DecimalString.
From Stdlib Require Import ZArith List Lia Bool Permutation.
From Equations Require Import Equations.
From ExtLib Require Import Structures.Monad Structures.MonadState
  Data.Monads.StateMonad.
Import ListNotations.
Import MonadNotation.
Local Open Scope monad_scope.
Local Open Scope Z_scope.

(** ** 32-bit signed integers *)

Definition INT_MIN : Z := - 2 ^ 31.
Definition INT_MAX : Z := 2 ^ 31 - 1.

(** The signed value of the low 32 bits of [z]. *)
Definition wrap32 (z : Z) : Z := (z + 2 ^ 31) mod 2 ^ 32 - 2 ^ 31.

(** [in_int z]: [z] is the value of an [int]. *)
Definition in_int (z : Z) : Prop := INT_MIN <= z <= INT_MAX.

(** [nonneg_int z]: [z] is the value of a non-negative [int]. *)
Definition nonneg_int (z : Z) : Prop := 0 <= z <= INT_MAX.

(** [arr.size()] fits the [int n] the function stores it in. *)
Definition size_fits_int (arr : list Z) : Prop :=
  Z.of_nat (length arr) <= INT_MAX.

(** ** The function *)

Module MaxAnd.

(** [1 << bit] on [int], for [0 <= bit <= 31]: the shifted bit pattern read
    as a signed value, so that [1 << 31] is [INT_MIN]. *)
Definition bitmask (bit : Z) : Z := wrap32 (Z.shiftl 1 bit).

(** [int tempResult = result | (1 << bit);] *)
Definition tempResult_of (result bit : Z) : Z := Z.lor result (bitmask bit).

(** [(num & tempResult) == tempResult] *)
Definition satisfies (tempResult num : Z) : bool :=
  Z.land num tempResult =? tempResult.

(** [for (int num : arr) { if (...) { count++; } }], started with the
    current value of [count]; [count++] is on [int], hence the [wrap32]. *)
Fixpoint count_loop (tempResult : Z) (arr : list Z) (count : Z) : Z :=
  match arr with
  | [] => count
  | num :: rest =>
      count_loop tempResult rest
        (if satisfies tempResult num then wrap32 (count + 1) else count)
  end.

(** The body of the outer loop for one value of [bit]: the new value of
    [result]. *)
Definition iteration (arr : list Z) (result bit : Z) : Z :=
  let tempResult := tempResult_of result bit in
  let count := count_loop tempResult arr 0 in
  if 2 <=? count then tempResult else result.

(** [for (int bit = nbits - 1; bit >= 0; --bit) { ... }] *)
Fixpoint bit_loop (arr : list Z) (nbits : nat) (result : Z) : Z :=
  match nbits with
  | O => result
  | S bit => bit_loop arr bit (iteration arr result (Z.of_nat bit))
  end.

(** [int result = 0;] then the loop from [bit = 31]; [int n = arr.size();]
    is not used by the function. *)
Definition maxAndPair (arr : list Z) : Z := bit_loop arr 32 0.

(** The value of [result] after the first [k] iterations of the outer
    loop, that is after the bits [31], ..., [32 - k]. *)
Fixpoint result_at (arr : list Z) (k : nat) : Z :=
  match k with
  | O => 0
  | S k' => iteration arr (result_at arr k') (31 - Z.of_nat k')
  end.

(** The number of elements that contain every bit of [tempResult]. *)
Definition matching (tempResult : Z) (arr : list Z) : nat :=
  length (filter (satisfies tempResult) arr).

(** Two elements at distinct positions contain every bit of [mask]. *)
Definition contained_twice (arr : list Z) (mask : Z) : Prop :=
  exists i j, i <> j /\ (i < length arr)%nat /\ (j < length arr)%nat
              /\ Z.land (nth i arr 0) mask = mask
              /\ Z.land (nth j arr 0) mask = mask.

End MaxAnd.

Import MaxAnd.

(** ** The call and its outcome

    [maxAndPair] has the return type [int], contains no [throw] and calls
    nothing that throws: a call ends by returning the value of [result].
    [outcome] is the type of what a caller can observe, with the error
    conditions the specification names. *)

Inductive error : Type :=
| InsufficientElements
| InvalidInput.

Inductive outcome : Type :=
| Returns (value : Z)
| Raises (e : error).

Definition call_maxAndPair (arr : list Z) : outcome :=
  Returns (maxAndPair arr).

(** ** The exhaustive pairwise scan

    The definition of the specification: the values [arr[i] & arr[j]] at
    all pairs of distinct positions, and their maximum ([None] when there
    is no pair). *)

Module Brute.

Definition pair_ands (arr : list Z) : list Z :=
  flat_map
    (fun i =>
       flat_map
         (fun j =>
            if Nat.eqb i j then []
            else [Z.land (nth i arr 0) (nth j arr 0)])
         (seq 0 (length arr)))
    (seq 0 (length arr)).

Definition maximum (l : list Z) : option Z :=
  match l with
  | [] => None
  | x :: rest => Some (fold_left Z.max rest x)
  end.

Definition maxPairwiseAnd (arr : list Z) : option Z :=
  maximum (pair_ands arr).

End Brute.

(** ** The function on the caller's vector

    The parameter is [vector<int>& arr], a reference to the caller's
    vector, so the vector is the one piece of state that outlives the
    call.  Here the function is a computation in a state monad whose state
    is that vector; [result], [count], [n], [bit], [tempResult] and [num]
    are locals of the call.  The function reads the vector through
    [size()] and through the iterator of the range-based [for], which
    copies each element into [num]. *)

Module Stateful.

Definition vec : Type := list Z.

Definition vec_size : state vec nat :=
  arr <- get ;; ret (length arr).

Definition vec_read (i : nat) : state vec Z :=
  arr <- get ;; ret (nth i arr 0).

(** [arr[i] = v], the only way to change an element; out of range it
    leaves the vector as it is. *)
Definition vec_write (i : nat) (v : Z) : state vec unit :=
  arr <- get ;;
  put (if Nat.ltb i (length arr)
       then firstn i arr ++ v :: skipn (S i) arr else arr).

(** The range-based [for] from position [i], with [remaining] elements
    up to [arr.end()]. *)
Fixpoint count_loop (tempResult : Z) (i remaining : nat) (count : Z)
  : state vec Z :=
  match remaining with
  | O => ret count
  | S r =>
      num <- vec_read i ;;
      count_loop tempResult (S i) r
        (if MaxAnd.satisfies tempResult num then wrap32 (count + 1)
         else count)
  end.

Definition iteration (result bit : Z) : state vec Z :=
  let tempResult := tempResult_of result bit in
  size <- vec_size ;;
  count <- count_loop tempResult 0 size 0 ;;
  ret (if 2 <=? count then tempResult else result).

Fixpoint bit_loop (nbits : nat) (result : Z) : state vec Z :=
  match nbits with
  | O => ret result
  | S bit =>
      result' <- iteration result (Z.of_nat bit) ;;
      bit_loop bit result'
  end.

Definition maxAndPair : state vec Z :=
  n <- vec_size ;;
  bit_loop 32 0.

(** Two calls in a row on the same vector. *)
Definition call_twice : state vec (Z * Z) :=
  first <- maxAndPair ;;
  second <- maxAndPair ;;
  ret (first, second).

End Stateful.

(** ** A vector longer than [INT_MAX] *)

(** The vector of [2^31] elements equal to 1, one more than [int count]
    can count. *)
Definition ones_beyond_int : list Z := repeat 1 (Z.to_nat (2 ^ 31)).

(** ** Reading an [int] as an unsigned 32-bit value *)

(** The value of the 32-bit pattern of [z] read as [unsigned]. *)
Definition as_unsigned (z : Z) : Z := z mod 2 ^ 32.

(** The bits of [z] from bit 31 upwards repeat bit 31, as they do in the
    two's complement expansion of an [int]. *)
Definition sign_extended (z : Z) : Prop :=
  forall n, 31 <= n -> Z.testbit z n = Z.testbit z 31.

(** ** Text written to [cout] *)

(** [cout << z] for an [int]: its decimal digits, with [-] when negative. *)
Definition print_int (z : Z) : string :=
  NilZero.string_of_int (Z.to_int z).

Definition endl : string := String (Ascii.ascii_of_nat 10) EmptyString.

(** [main] of 04_max_AND.cpp: the text it writes and the value it
    returns. *)
Definition main_max_AND : string * Z :=
  let arr := [4; 8; 12; 16] in
  (("Maximum AND value: " ++ print_int (maxAndPair arr) ++ endl)%string, 0).

(** ** The Josephus recursion (src/03_recursion/L02_Josephus.cpp) *)

Module Josephus.

(** [josephus(n, k)], with [fuel] bounding the depth of the recursion:
    [None] when the base case [n == 1] is not reached within [fuel] calls.
    [n - 1] and [... + k] are on [int]; [%] truncates towards zero, as
    [Z.rem] does. *)
Fixpoint josephus (fuel : nat) (n k : Z) : option Z :=
  match fuel with
  | O => None
  | S fuel' =>
      if n =? 1 then Some 0
      else
        match josephus fuel' (wrap32 (n - 1)) k with
        | Some r => Some (Z.rem (wrap32 (r + k)) n)
        | None => None
        end
  end.

(** The game the function is about: the people stand in a circle, listed
    from the one the count starts at; the [k]-th is removed and the count
    starts again at the next one, until [rounds] people are removed.  The
    result is the circle that is left, listed from the next start. *)
Fixpoint eliminate {A : Type} (rounds : nat) (k : Z) (circle : list A)
  : list A :=
  match rounds with
  | O => circle
  | S rounds' =>
      let i := Z.to_nat ((k - 1) mod Z.of_nat (length circle)) in
      eliminate rounds' k (skipn (S i) circle ++ firstn i circle)
  end.

(** The last one of [circle] left. *)
Definition survivor {A : Type} (k : Z) (circle : list A) : option A :=
  hd_error (eliminate (length circle - 1) k circle).

End Josephus.

(** ** Decimal to binary (src/03_recursion/L01_decimal_to_binary.cpp) *)

Module DecimalToBinary.

(** [decimalToBinary(n)]: the values written by [cout << (n % 2)], in the
    order they are written.  [n / 2] and [n % 2] truncate towards zero
    ([Z.quot] and [Z.rem]). *)
Equations? decimalToBinary (n : Z) : list Z by wf (Z.abs_nat n) lt :=
  decimalToBinary n with Z.eq_dec n 0 := {
    | left _ => [];
    | right _ => decimalToBinary (Z.quot n 2) ++ [Z.rem n 2] }.
Proof. Z.to_euclidean_division_equations. lia. Qed.

(** The text on [cout]. *)
Definition written (values : list Z) : string :=
  fold_right String.append EmptyString (map print_int values).

(** Reading a text of binary digits back, most significant first: the
    character [1] counts one, any other zero. *)
Fixpoint read_binary_from (acc : Z) (text : string) : Z :=
  match text with
  | EmptyString => acc
  | String c rest =>
      read_binary_from (2 * acc + (if Ascii.eqb c "1"%char then 1 else 0)) rest
  end.

Definition read_binary (text : string) : Z := read_binary_from 0 text.

(** The number whose binary digits, most significant first, are
    [digits]. *)
Definition value_of (digits : list Z) : Z :=
  fold_left (fun acc d => 2 * acc + d) digits 0.

(** [cin >> num] when the input is the decimal numeral of [typed]: the
    [int] stored is [typed], or the nearest bound of [int] when [typed]
    does not fit. *)
Definition cin_int (typed : Z) : Z := Z.max INT_MIN (Z.min INT_MAX typed).

(** All that [main] writes on [cout] when the input is the decimal
    numeral of [typed]: the prompt, then the answer for the [int] read. *)
Definition main_output (typed : Z) : string :=
  let num := cin_int typed in
  String.append "Enter a decimal number: "
    (String.append
       (if num =? 0 then "0"%string
        else ("Binary representation of " ++ print_int num ++ " is: "
              ++ written (decimalToBinary num))%string)
       endl).

End DecimalToBinary.

(** ** Sample runs *)

Example ex_main_max_AND :
  main_max_AND = (("Maximum AND value: 8" ++ endl)%string, 0).
Proof. vm_compute. reflexivity. Qed.

Example ex_josephus_7_3 : Josephus.josephus 7 7 3 = Some 3.
Proof. reflexivity. Qed.

Example ex_survivor_7_3 :
  Josephus.survivor 3 [0; 1; 2; 3; 4; 5; 6] = Some 3.
Proof. reflexivity. Qed.

Example ex_josephus_negative_step : Josephus.josephus 2 2 (-1) = Some (-1).
Proof. reflexivity. Qed.

Example ex_binary_10 : DecimalToBinary.decimalToBinary 10 = [1; 0; 1; 0].
Proof. reflexivity. Qed.

Example ex_binary_minus_5 :
  DecimalToBinary.written (DecimalToBinary.decimalToBinary (-5))
  = "-10-1"%string.
Proof. reflexivity. Qed.

Example ex_binary_main_6 :
  DecimalToBinary.main_output 6
  = ("Enter a decimal number: Binary representation of 6 is: 110"
     ++ endl)%string.
Proof. reflexivity. Qed.

Example ex_binary_main_0 :
  DecimalToBinary.main_output 0
  = ("Enter a decimal number: 0" ++ endl)%string.
Proof. reflexivity. Qed.

Example ex_bitmask31 : bitmask 31 = INT_MIN.
Proof. reflexivity. Qed.

Example ex_main : maxAndPair [4; 8; 12; 16] = 8.
Proof. vm_compute. reflexivity. Qed.

Example ex_brute_main : Brute.maxPairwiseAnd [4; 8; 12; 16] = Some 8.
Proof. vm_compute. reflexivity. Qed.

Example ex_stateful_main :
  runState Stateful.maxAndPair [4; 8; 12; 16] = (8, [4; 8; 12; 16]).
Proof. vm_compute. reflexivity. Qed.

Example ex_vec_write :
  runState (Stateful.vec_write 1 9) [4; 8; 12] = (tt, [4; 9; 12]).
Proof. reflexivity. Qed.

Example ex_disjoint : maxAndPair [1; 2; 4; 8] = 0.
Proof. vm_compute. reflexivity. Qed.

Example ex_255 : maxAndPair [255; 255; 0] = 255.
Proof. vm_compute. reflexivity. Qed.

Example ex_negative : maxAndPair [-1; -1; 5; 5] = -1.
Proof. vm_compute. reflexivity. Qed.

(** ** Facts on 32-bit values and on bit patterns *)

Section Bits.

Lemma wrap32_small z : in_int z -> wrap32 z = z.
Proof.
  unfold in_int, INT_MIN, INT_MAX, wrap32. intros H.
  rewrite Z.mod_small; lia.
Qed.

Lemma wrap32_add_l a b : wrap32 (wrap32 a + b) = wrap32 (a + b).
Proof.
  unfold wrap32.
  replace ((a + 2 ^ 31) mod 2 ^ 32 - 2 ^ 31 + b + 2 ^ 31)
    with ((a + 2 ^ 31) mod 2 ^ 32 + b) by ring.
  rewrite Z.add_mod_idemp_l by lia.
  f_equal. f_equal. ring.
Qed.

Lemma bitmask_low bit : 0 <= bit <= 30 -> bitmask bit = 2 ^ bit.
Proof.
  intros H. unfold bitmask. rewrite Z.shiftl_1_l.
  apply wrap32_small. unfold in_int, INT_MIN, INT_MAX.
  assert (0 < 2 ^ bit) by (apply Z.pow_pos_nonneg; lia).
  assert (2 ^ bit <= 2 ^ 30) by (apply Z.pow_le_mono_r; lia).
  lia.
Qed.

Lemma bitmask_sign : bitmask 31 = INT_MIN.
Proof. reflexivity. Qed.

(** Within the 32 bits of an [int], [1 << bit] has exactly the bit [bit]. *)
Lemma bitmask_bits bit n :
  0 <= bit < 32 -> 0 <= n < 32 ->
  Z.testbit (bitmask bit) n = (n =? bit).
Proof.
  intros Hb Hn.
  destruct (Z.eq_dec bit 31) as [-> | Hne].
  - rewrite bitmask_sign. unfold INT_MIN.
    replace (- 2 ^ 31) with (Z.lnot (Z.ones 31)) by reflexivity.
    rewrite Z.lnot_spec by lia.
    rewrite Z.testbit_ones_nonneg by lia.
    destruct (Z.ltb_spec n 31), (Z.eqb_spec n 31); simpl; auto; lia.
  - rewrite bitmask_low by lia.
    rewrite Z.pow2_bits_eqb by lia.
    apply Z.eqb_sym.
Qed.

(** A mask contained in a non-negative value is at most that value. *)
Lemma contained_le p r : 0 <= p -> Z.land p r = r -> 0 <= r <= p.
Proof.
  intros Hp Hr.
  assert (H0 : 0 <= r) by (rewrite <- Hr; apply Z.land_nonneg; auto).
  split; [exact H0|].
  assert (Hd : 0 <= Z.ldiff p r) by (apply Z.ldiff_nonneg; auto).
  assert (Hs : Z.lor r (Z.ldiff p r) = p).
  { apply Z.bits_inj'. intros n Hn.
    rewrite Z.lor_spec, Z.ldiff_spec.
    assert (Hb : Z.testbit (Z.land p r) n = Z.testbit r n) by (rewrite Hr; auto).
    rewrite Z.land_spec in Hb.
    destruct (Z.testbit p n), (Z.testbit r n); simpl in *; congruence. }
  assert (Hz : Z.land r (Z.ldiff p r) = 0).
  { apply Z.bits_inj'. intros n Hn.
    rewrite Z.land_spec, Z.ldiff_spec, Z.bits_0.
    destruct (Z.testbit p n), (Z.testbit r n); reflexivity. }
  pose proof (Z.add_lor_land r (Z.ldiff p r)) as Ha.
  rewrite Hs, Hz in Ha. lia.
Qed.

Lemma pair_contains a b t :
  Z.land a t = t -> Z.land b t = t -> Z.land (Z.land a b) t = t.
Proof.
  intros Ha Hb. rewrite <- Z.land_assoc, Hb. exact Ha.
Qed.

Lemma pair_contains_l a b t : Z.land (Z.land a b) t = t -> Z.land a t = t.
Proof.
  intros H. rewrite <- H at 1.
  rewrite !Z.land_assoc, Z.land_diag. exact H.
Qed.

Lemma pair_contains_r a b t : Z.land (Z.land a b) t = t -> Z.land b t = t.
Proof.
  rewrite (Z.land_comm a b). apply pair_contains_l.
Qed.

(** A value that agrees with [t] from bit [c] upwards contains [t] when
    [t] has no bit below [c]. *)
Lemma high_agree p t c :
  0 <= c ->
  (forall n, 0 <= n < c -> Z.testbit t n = false) ->
  p / 2 ^ c = t / 2 ^ c ->
  Z.land p t = t.
Proof.
  intros Hc Hlow Hdiv.
  apply Z.bits_inj'. intros n Hn.
  rewrite Z.land_spec.
  destruct (Z.lt_ge_cases n c) as [Hlt | Hge].
  - rewrite Hlow by lia. apply andb_false_r.
  - replace n with ((n - c) + c) by ring.
    rewrite <- !Z.div_pow2_bits by lia.
    rewrite Hdiv. apply andb_diag.
Qed.

(** Setting a bit that is clear adds its weight. *)
Lemma lor_fresh_bit r c :
  0 <= c -> Z.testbit r c = false -> Z.lor r (2 ^ c) = r + 2 ^ c.
Proof.
  intros Hc Hbit.
  assert (Hz : Z.land r (2 ^ c) = 0).
  { apply Z.bits_inj'. intros n Hn.
    rewrite Z.land_spec, Z.bits_0, Z.pow2_bits_eqb by lia.
    destruct (Z.eqb_spec c n) as [<- | _].
    - rewrite Hbit. reflexivity.
    - apply andb_false_r. }
  pose proof (Z.add_lor_land r (2 ^ c)) as Ha.
  rewrite Hz in Ha. lia.
Qed.

End Bits.

(** ** The counting loop *)

Section Counting.

Variable tempResult : Z.

Lemma wrap32_range z : in_int (wrap32 z).
Proof.
  unfold in_int, INT_MIN, INT_MAX, wrap32.
  pose proof (Z.mod_pos_bound (z + 2 ^ 31) (2 ^ 32)). lia.
Qed.

Lemma satisfies_iff num :
  satisfies tempResult num = true <-> Z.land num tempResult = tempResult.
Proof. unfold satisfies. apply Z.eqb_eq. Qed.

(** [count] is the number of matching elements, modulo the width of
    [int]. *)
Lemma count_loop_wrap arr : forall count,
  in_int count ->
  count_loop tempResult arr count
  = wrap32 (count + Z.of_nat (matching tempResult arr)).
Proof.
  unfold matching.
  induction arr as [| num rest IH]; intros count Hc; simpl.
  - rewrite Z.add_0_r. symmetry. apply wrap32_small. exact Hc.
  - destruct (satisfies tempResult num); simpl length.
    + rewrite IH by apply wrap32_range.
      rewrite wrap32_add_l. f_equal. lia.
    + apply IH. exact Hc.
Qed.

Lemma matching_le_length arr : (matching tempResult arr <= length arr)%nat.
Proof. apply filter_length_le. Qed.

Lemma count_exact arr :
  size_fits_int arr ->
  count_loop tempResult arr 0 = Z.of_nat (matching tempResult arr).
Proof.
  intros Hn. rewrite count_loop_wrap by (unfold in_int, INT_MIN, INT_MAX; lia).
  apply wrap32_small.
  pose proof (matching_le_length arr).
  unfold size_fits_int in Hn. unfold in_int, INT_MIN, INT_MAX in *. lia.
Qed.

(** The test [count >= 2] never succeeds with fewer than two matching
    elements, whatever the length of the vector. *)
Lemma count_ge2_sound arr :
  2 <= count_loop tempResult arr 0 -> (2 <= matching tempResult arr)%nat.
Proof.
  rewrite count_loop_wrap by (unfold in_int, INT_MIN, INT_MAX; lia).
  intros H.
  destruct (Nat.le_gt_cases 2 (matching tempResult arr)) as [Hge | Hlt]; auto.
  rewrite wrap32_small in H by (unfold in_int, INT_MIN, INT_MAX; lia).
  lia.
Qed.

Lemma matching_perm arr arr' :
  Permutation arr arr' -> matching tempResult arr = matching tempResult arr'.
Proof.
  intros Hp. unfold matching.
  apply Permutation_length.
  induction Hp; simpl.
  - constructor.
  - destruct (satisfies tempResult x); auto.
  - destruct (satisfies tempResult x), (satisfies tempResult y);
      auto using Permutation_refl, perm_swap.
  - eapply Permutation_trans; eassumption.
Qed.

Lemma count_loop_perm arr arr' :
  Permutation arr arr' ->
  count_loop tempResult arr 0 = count_loop tempResult arr' 0.
Proof.
  intros Hp.
  rewrite !count_loop_wrap by (unfold in_int, INT_MIN, INT_MAX; lia).
  rewrite (matching_perm arr arr' Hp). reflexivity.
Qed.

(** Two matching elements are two distinct positions of the vector. *)
Lemma matching_one arr :
  (1 <= matching tempResult arr)%nat ->
  exists i, (i < length arr)%nat
            /\ Z.land (nth i arr 0) tempResult = tempResult.
Proof.
  unfold matching.
  induction arr as [| num rest IH]; simpl; intros H; [lia|].
  destruct (satisfies tempResult num) eqn:E.
  - exists 0%nat. split; [lia|]. apply satisfies_iff. exact E.
  - destruct (IH H) as (i & Hi & Hs).
    exists (S i). split; [lia | exact Hs].
Qed.

Lemma matching_two arr :
  (2 <= matching tempResult arr)%nat ->
  exists i j, (i < j < length arr)%nat
              /\ Z.land (nth i arr 0) tempResult = tempResult
              /\ Z.land (nth j arr 0) tempResult = tempResult.
Proof.
  induction arr as [| num rest IH]; intros H.
  - unfold matching in H. simpl in H. lia.
  - unfold matching in H. simpl in H.
    destruct (satisfies tempResult num) eqn:E.
    + simpl in H.
      destruct (matching_one rest) as (j & Hj & Hs);
        [unfold matching; lia|].
      exists 0%nat, (S j). simpl. repeat split; try lia; auto.
      apply satisfies_iff. exact E.
    + destruct (IH H) as (i & j & Hij & Hi & Hj).
      exists (S i), (S j). simpl. repeat split; try lia; auto.
Qed.

Lemma two_matching arr i j :
  (i < j < length arr)%nat ->
  Z.land (nth i arr 0) tempResult = tempResult ->
  Z.land (nth j arr 0) tempResult = tempResult ->
  (2 <= matching tempResult arr)%nat.
Proof.
  unfold matching.
  revert i j. induction arr as [| num rest IH]; intros i j Hij Hi Hj.
  - simpl in Hij. lia.
  - simpl in Hij. simpl filter.
    destruct j as [| j']; [lia|].
    destruct i as [| i'].
    + simpl in Hi. apply satisfies_iff in Hi. rewrite Hi. simpl.
      apply le_n_S.
      assert (Hlt : (j' < length rest)%nat) by lia.
      simpl in Hj. clear - Hj Hlt.
      revert j' Hj Hlt.
      induction rest as [| y rest' IHr]; intros j' Hj Hlt; [simpl in Hlt; lia|].
      simpl. destruct j' as [| j''].
      * simpl in Hj. apply satisfies_iff in Hj. rewrite Hj. simpl. lia.
      * simpl in Hj, Hlt.
        assert (1 <= length (filter (satisfies tempResult) rest'))%nat
          by (apply (IHr j''); [exact Hj | lia]).
        destruct (satisfies tempResult y); simpl; lia.
    + simpl in Hi, Hj.
      assert (2 <= length (filter (satisfies tempResult) rest))%nat
        by (apply (IH i' j'); [lia | exact Hi | exact Hj]).
      destruct (satisfies tempResult num); simpl; lia.
Qed.

End Counting.

(** ** The loop over the bits *)

Section Loop.

Variable arr : list Z.

(** [bit_loop] continues from any intermediate state to the result. *)
Lemma bit_loop_resume k :
  (k <= 32)%nat ->
  bit_loop arr (32 - k) (result_at arr k) = maxAndPair arr.
Proof.
  induction k as [| k IH]; intros Hk.
  - reflexivity.
  - rewrite <- IH by lia.
    assert (Hm : exists m, (32 - S k = m)%nat /\ (32 - k = S m)%nat
                           /\ Z.of_nat m = 31 - Z.of_nat k)
      by (exists (32 - S k)%nat; lia).
    destruct Hm as (m & -> & -> & Hm).
    simpl. rewrite Hm. reflexivity.
Qed.

Lemma result_at_final : result_at arr 32 = maxAndPair arr.
Proof. exact (bit_loop_resume 32 (Nat.le_refl 32)). Qed.

(** The two branches of [if (count >= 2)]. *)
Lemma iteration_spec result bit :
  let t := tempResult_of result bit in
  (2 <= count_loop t arr 0 /\ iteration arr result bit = t)
  \/ (count_loop t arr 0 < 2 /\ iteration arr result bit = result).
Proof.
  unfold iteration. simpl.
  destruct (Z.leb_spec 2 (count_loop (tempResult_of result bit) arr 0));
    [left | right]; auto.
Qed.

(** After [k] iterations the bits below [32 - k] are still clear. *)
Lemma low_clear k : forall n,
  0 <= n < 32 - Z.of_nat k -> Z.testbit (result_at arr k) n = false.
Proof.
  induction k as [| k IH]; intros n Hn.
  - apply Z.bits_0.
  - cbn [result_at].
    destruct (iteration_spec (result_at arr k) (31 - Z.of_nat k))
      as [[_ ->] | [_ ->]].
    + unfold tempResult_of. rewrite Z.lor_spec.
      rewrite IH by lia. rewrite bitmask_bits by lia.
      rewrite orb_false_l. apply Z.eqb_neq. lia.
    + apply IH. lia.
Qed.

Lemma tempResult_bits k n :
  (k < 32)%nat -> 0 <= n < 32 ->
  Z.testbit (tempResult_of (result_at arr k) (31 - Z.of_nat k)) n
  = if n =? 31 - Z.of_nat k then true else Z.testbit (result_at arr k) n.
Proof.
  intros Hk Hn. unfold tempResult_of.
  rewrite Z.lor_spec, bitmask_bits by lia.
  destruct (Z.eqb_spec n (31 - Z.of_nat k)) as [-> | _].
  - apply orb_true_r.
  - apply orb_false_r.
Qed.

(** The tentative mask differs from the current one. *)
Lemma tempResult_fresh k :
  (k < 32)%nat ->
  tempResult_of (result_at arr k) (31 - Z.of_nat k) <> result_at arr k.
Proof.
  intros Hk Heq.
  pose proof (tempResult_bits k (31 - Z.of_nat k) Hk) as Hb.
  rewrite Heq, Z.eqb_refl, low_clear in Hb by lia.
  specialize (Hb ltac:(lia)). discriminate.
Qed.

(** Below the sign bit the tentative mask is the current one plus the
    weight of the bit. *)
Lemma tempResult_add k :
  (0 < k < 32)%nat ->
  tempResult_of (result_at arr k) (31 - Z.of_nat k)
  = result_at arr k + 2 ^ (31 - Z.of_nat k).
Proof.
  intros Hk. unfold tempResult_of.
  rewrite bitmask_low by lia.
  apply lor_fresh_bit; [lia|].
  apply low_clear. lia.
Qed.

(** With at least two elements, two elements contain the mask at every
    point of the loop. *)
Lemma achievable k :
  (2 <= length arr)%nat -> (2 <= matching (result_at arr k) arr)%nat.
Proof.
  intros Hlen. induction k as [| k IH].
  - simpl. unfold matching.
    rewrite (forallb_filter_id (satisfies 0) arr); [exact Hlen|].
    apply forallb_forall. intros x _.
    apply satisfies_iff. apply Z.land_0_r.
  - cbn [result_at].
    destruct (iteration_spec (result_at arr k) (31 - Z.of_nat k))
      as [[Hc ->] | [_ ->]].
    + apply count_ge2_sound. exact Hc.
    + exact IH.
Qed.

End Loop.

(** ** Non-negative elements *)

Section NonNegative.

Variable arr : list Z.

Lemma no_sign_match t :
  Forall (fun x => 0 <= x) arr -> t < 0 -> matching t arr = 0%nat.
Proof.
  intros Hpos Ht. unfold matching.
  induction Hpos as [| x rest Hx _ IH]; [reflexivity|].
  simpl. destruct (satisfies t x) eqn:E; [|exact IH].
  apply satisfies_iff in E.
  assert (0 <= Z.land x t) by (apply Z.land_nonneg; auto).
  lia.
Qed.

(** The iteration of bit 31 tries the mask [INT_MIN], which no
    non-negative element contains. *)
Lemma sign_bit_skipped :
  Forall (fun x => 0 <= x) arr -> result_at arr 1 = 0.
Proof.
  intros Hpos. cbn [result_at].
  destruct (iteration_spec arr 0 (31 - Z.of_nat 0)) as [[Hc _] | [_ ->]];
    [|reflexivity].
  apply count_ge2_sound in Hc.
  rewrite no_sign_match in Hc; [lia | exact Hpos | reflexivity].
Qed.

Lemma nonneg_weaken :
  Forall nonneg_int arr -> Forall (fun x => 0 <= x) arr.
Proof.
  apply Forall_impl. unfold nonneg_int. intros a H. lia.
Qed.

Lemma nth_nonneg_int i :
  Forall nonneg_int arr -> (i < length arr)%nat -> nonneg_int (nth i arr 0).
Proof.
  intros Hall Hi. rewrite Forall_forall in Hall.
  apply Hall. apply nth_In. exact Hi.
Qed.

Lemma pair_bounds a b :
  nonneg_int a -> nonneg_int b -> nonneg_int (Z.land a b).
Proof.
  unfold nonneg_int. intros Ha Hb.
  assert (H : 0 <= Z.land a b <= a).
  { apply contained_le; [lia|].
    rewrite Z.land_assoc, Z.land_diag. reflexivity. }
  lia.
Qed.

Lemma result_bounds k :
  Forall nonneg_int arr -> nonneg_int (result_at arr k).
Proof.
  intros Hall. induction k as [| k IH].
  - unfold nonneg_int, INT_MAX. simpl. lia.
  - cbn [result_at].
    destruct (iteration_spec arr (result_at arr k) (31 - Z.of_nat k))
      as [[Hc ->] | [_ ->]]; [|exact IH].
    apply count_ge2_sound in Hc.
    set (t := tempResult_of (result_at arr k) (31 - Z.of_nat k)) in *.
    destruct (matching_one t arr) as (i & Hi & Hs); [lia|].
    pose proof (nth_nonneg_int i Hall Hi) as Hx.
    unfold nonneg_int in *.
    pose proof (contained_le _ _ (proj1 Hx) Hs). lia.
Qed.

(** No pair beats the mask on the bits decided so far. *)
Lemma dominated k :
  Forall nonneg_int arr -> size_fits_int arr -> (k <= 32)%nat ->
  forall i j, (i < j < length arr)%nat ->
    Z.land (nth i arr 0) (nth j arr 0) / 2 ^ (32 - Z.of_nat k)
    <= result_at arr k / 2 ^ (32 - Z.of_nat k).
Proof.
  intros Hall Hfit Hk i j Hij.
  pose proof (pair_bounds _ _ (nth_nonneg_int i Hall ltac:(lia))
                (nth_nonneg_int j Hall ltac:(lia))) as Hp.
  set (p := Z.land (nth i arr 0) (nth j arr 0)) in *.
  unfold nonneg_int, INT_MAX in Hp.
  induction k as [| k IH].
  - simpl result_at. rewrite Z.div_small; [reflexivity|].
    change (32 - Z.of_nat 0) with 32. lia.
  - destruct k as [| k'].
    + rewrite sign_bit_skipped by (apply nonneg_weaken; exact Hall).
      rewrite Z.div_small; [reflexivity|].
      change (32 - Z.of_nat 1) with 31. lia.
    + specialize (IH ltac:(lia)).
      set (k := S k') in *.
      set (c := 31 - Z.of_nat k).
      assert (Hc : 0 <= c <= 30) by (unfold c, k; lia).
      replace (32 - Z.of_nat (S k)) with c by (unfold c; lia).
      replace (32 - Z.of_nat k) with (Z.succ c) in IH by (unfold c; lia).
      rewrite Z.pow_succ_r, (Z.mul_comm 2), <- !Z.div_div in IH by lia.
      pose proof (low_clear arr k c ltac:(unfold c; lia)) as Hclear.
      apply Z.testbit_false in Hclear; [|lia].
      pose proof (tempResult_add arr k ltac:(unfold k; lia)) as Hadd.
      fold c in Hadd.
      assert (Hdiv : (result_at arr k + 2 ^ c) / 2 ^ c
                     = result_at arr k / 2 ^ c + 1).
      { replace (result_at arr k + 2 ^ c)
          with (result_at arr k + 1 * 2 ^ c) by ring.
        apply Z.div_add. lia. }
      assert (Hnext : p / 2 ^ c <= result_at arr k / 2 ^ c + 1).
      { revert IH Hclear.
        generalize (p / 2 ^ c) (result_at arr k / 2 ^ c).
        intros P R HPR HR. clear - HPR HR.
        Z.to_euclidean_division_equations. lia. }
      cbn [result_at]. fold c.
      destruct (iteration_spec arr (result_at arr k) c)
        as [[_ ->] | [Hcount ->]].
      * rewrite Hadd, Hdiv. exact Hnext.
      * destruct (Z.le_gt_cases (p / 2 ^ c) (result_at arr k / 2 ^ c))
          as [Hle | Hgt]; [exact Hle | exfalso].
        assert (Hagree : p / 2 ^ c
                         = tempResult_of (result_at arr k) c / 2 ^ c).
        { rewrite Hadd, Hdiv. revert Hnext Hgt.
          generalize (p / 2 ^ c) (result_at arr k / 2 ^ c).
          intros P R HPR HR. clear - HPR HR.
        Z.to_euclidean_division_equations. lia. }
        apply high_agree in Hagree; [|lia|].
        -- rewrite count_exact in Hcount by exact Hfit.
           assert (2 <= matching (tempResult_of (result_at arr k) c) arr)%nat.
           { apply (two_matching _ arr i j Hij).
             - apply (pair_contains_l _ _ _ Hagree).
             - apply (pair_contains_r _ _ _ Hagree). }
           lia.
        -- intros n Hn. unfold c.
           rewrite tempResult_bits by (unfold k; lia).
           fold c. rewrite (proj2 (Z.eqb_neq n c)) by lia.
           apply low_clear. unfold c in Hn. lia.
Qed.

(** The greedy result is the AND of a pair and no pair gives more. *)
Lemma greedy_is_max :
  Forall nonneg_int arr -> (2 <= length arr)%nat -> size_fits_int arr ->
  (exists i j, (i < j < length arr)%nat
               /\ maxAndPair arr = Z.land (nth i arr 0) (nth j arr 0))
  /\ (forall i j, (i < j < length arr)%nat ->
        Z.land (nth i arr 0) (nth j arr 0) <= maxAndPair arr).
Proof.
  intros Hall Hlen Hfit.
  assert (Hup : forall i j, (i < j < length arr)%nat ->
                  Z.land (nth i arr 0) (nth j arr 0) <= maxAndPair arr).
  { intros i j Hij.
    pose proof (dominated 32 Hall Hfit (Nat.le_refl 32) i j Hij) as H.
    change (2 ^ (32 - Z.of_nat 32)) with 1 in H.
    rewrite !Z.div_1_r, result_at_final in H. exact H. }
  split; [|exact Hup].
  destruct (matching_two _ arr (achievable arr 32 Hlen))
    as (i & j & Hij & Hi & Hj).
  rewrite result_at_final in Hi, Hj.
  exists i, j. split; [exact Hij|].
  pose proof (pair_contains _ _ _ Hi Hj) as Hc.
  apply contained_le in Hc.
  - specialize (Hup i j Hij). lia.
  - apply Z.land_nonneg. left.
    pose proof (nth_nonneg_int i Hall ltac:(lia)) as Hx.
    unfold nonneg_int in Hx. lia.
Qed.

End NonNegative.

(** ** The exhaustive scan *)

Section BruteForce.

Lemma In_pair_ands arr p :
  In p (Brute.pair_ands arr) <->
  exists i j, (i < length arr)%nat /\ (j < length arr)%nat /\ i <> j
              /\ p = Z.land (nth i arr 0) (nth j arr 0).
Proof.
  unfold Brute.pair_ands. rewrite in_flat_map. split.
  - intros (i & Hi & Hin). apply in_flat_map in Hin.
    destruct Hin as (j & Hj & Hin).
    apply in_seq in Hi. apply in_seq in Hj.
    destruct (Nat.eqb_spec i j) as [_ | Hne]; simpl in Hin; [contradiction|].
    destruct Hin as [<- | []].
    exists i, j. repeat split; auto; lia.
  - intros (i & j & Hi & Hj & Hne & ->).
    exists i. split; [apply in_seq; lia|].
    apply in_flat_map. exists j. split; [apply in_seq; lia|].
    destruct (Nat.eqb_spec i j); [contradiction | left; reflexivity].
Qed.

Lemma fold_max_spec l : forall a,
  (fold_left Z.max l a = a \/ In (fold_left Z.max l a) l)
  /\ a <= fold_left Z.max l a
  /\ (forall x, In x l -> x <= fold_left Z.max l a).
Proof.
  induction l as [| y rest IH]; intros a; simpl.
  - repeat split; auto; try lia; intros x [].
  - destruct (IH (Z.max a y)) as (Hin & Hge & Hall).
    repeat split.
    + destruct Hin as [Heq | Hin]; [|right; right; exact Hin].
      rewrite Heq. destruct (Z.max_spec a y) as [[_ ->] | [_ ->]]; auto.
    + lia.
    + intros x [<- | Hx]; [lia | apply Hall; exact Hx].
Qed.

Lemma maximum_intro l m :
  In m l -> (forall x, In x l -> x <= m) -> Brute.maximum l = Some m.
Proof.
  intros Hin Hall. destruct l as [| a rest]; [contradiction|].
  simpl. f_equal.
  destruct (fold_max_spec rest a) as (Hmem & Hge & Hmax).
  apply Z.le_antisymm.
  - apply Hall. destruct Hmem as [-> | Hmem]; [left | right]; auto.
  - destruct Hin as [<- | Hin]; [exact Hge | apply Hmax; exact Hin].
Qed.

End BruteForce.

(** ** The function on the caller's vector *)

Section OnTheVector.

Lemma run_bind {A B} (c : state Stateful.vec A)
    (f : A -> state Stateful.vec B) s :
  runState (bind c f) s
  = runState (f (fst (runState c s))) (snd (runState c s)).
Proof. simpl. destruct (runState c s). reflexivity. Qed.

Lemma run_vec_size s : runState Stateful.vec_size s = (length s, s).
Proof. reflexivity. Qed.

Lemma run_vec_read i s : runState (Stateful.vec_read i) s = (nth i s 0, s).
Proof. reflexivity. Qed.

Lemma skipn_nth_cons (s : list Z) i :
  (i < length s)%nat -> skipn i s = nth i s 0 :: skipn (S i) s.
Proof.
  revert i. induction s as [| x rest IH]; intros i Hi; simpl in Hi; [lia|].
  destruct i as [| i']; [reflexivity|].
  simpl. apply IH. lia.
Qed.

Lemma count_loop_run t remaining : forall i count s,
  (i + remaining = length s)%nat ->
  runState (Stateful.count_loop t i remaining count) s
  = (count_loop t (skipn i s) count, s).
Proof.
  induction remaining as [| r IH]; intros i count s Hlen.
  - rewrite Nat.add_0_r in Hlen. subst i. rewrite skipn_all. reflexivity.
  - rewrite skipn_nth_cons by lia.
    cbn [Stateful.count_loop count_loop].
    rewrite run_bind, run_vec_read. cbn [fst snd].
    apply IH. lia.
Qed.

Lemma iteration_run result bit s :
  runState (Stateful.iteration result bit) s = (iteration s result bit, s).
Proof.
  unfold Stateful.iteration.
  rewrite run_bind, run_vec_size. cbn [fst snd].
  rewrite run_bind.
  rewrite (count_loop_run _ (length s) 0%nat 0 s) by reflexivity.
  reflexivity.
Qed.

Lemma bit_loop_run nbits : forall result s,
  runState (Stateful.bit_loop nbits result) s = (bit_loop s nbits result, s).
Proof.
  induction nbits as [| bit IH]; intros result s.
  - reflexivity.
  - cbn [Stateful.bit_loop bit_loop].
    rewrite run_bind, iteration_run. cbn [fst snd].
    apply IH.
Qed.

Lemma maxAndPair_run s :
  runState Stateful.maxAndPair s = (maxAndPair s, s).
Proof.
  unfold Stateful.maxAndPair.
  rewrite run_bind, run_vec_size. cbn [fst snd].
  apply bit_loop_run.
Qed.

End OnTheVector.

(** ** Order of the elements, short vectors, single steps *)

Section Steps.

Lemma iteration_perm arr arr' result bit :
  Permutation arr arr' -> iteration arr result bit = iteration arr' result bit.
Proof.
  intros Hp. unfold iteration.
  rewrite (count_loop_perm _ arr arr' Hp). reflexivity.
Qed.

Lemma bit_loop_perm arr arr' nbits :
  Permutation arr arr' ->
  forall result, bit_loop arr nbits result = bit_loop arr' nbits result.
Proof.
  intros Hp. induction nbits as [| bit IH]; intros result; simpl.
  - reflexivity.
  - rewrite (iteration_perm arr arr' _ _ Hp). apply IH.
Qed.

(** With fewer than two elements [count] stays below 2. *)
Lemma short_count arr t : (length arr < 2)%nat -> count_loop t arr 0 < 2.
Proof.
  intros Hlen.
  destruct (Z.lt_ge_cases (count_loop t arr 0) 2) as [Hlt | Hge]; auto.
  apply count_ge2_sound in Hge.
  pose proof (matching_le_length t arr). lia.
Qed.

Lemma short_result_at arr k : (length arr < 2)%nat -> result_at arr k = 0.
Proof.
  intros Hlen. induction k as [| k IH]; [reflexivity|].
  cbn [result_at].
  destruct (iteration_spec arr (result_at arr k) (31 - Z.of_nat k))
    as [[Hc _] | [_ ->]]; [|exact IH].
  pose proof (short_count arr (tempResult_of (result_at arr k)
                                 (31 - Z.of_nat k)) Hlen). lia.
Qed.

Lemma short_maxAndPair arr : (length arr < 2)%nat -> maxAndPair arr = 0.
Proof.
  intros Hlen. rewrite <- result_at_final. apply short_result_at. exact Hlen.
Qed.

(** An iteration keeps [result] or replaces it by the tentative mask. *)
Lemma step_cases arr k :
  result_at arr (S k) = result_at arr k
  \/ result_at arr (S k) = tempResult_of (result_at arr k) (31 - Z.of_nat k).
Proof.
  cbn [result_at].
  destruct (iteration_spec arr (result_at arr k) (31 - Z.of_nat k))
    as [[_ ->] | [_ ->]]; auto.
Qed.

Lemma step_monotone arr k :
  (k < 32)%nat ->
  (0 < k)%nat \/ Forall (fun x => 0 <= x) arr ->
  result_at arr k <= result_at arr (S k).
Proof.
  intros Hk Hcase.
  destruct k as [| k'].
  - destruct Hcase as [Hpos | Hall]; [lia|].
    rewrite (sign_bit_skipped arr Hall). simpl. lia.
  - destruct (step_cases arr (S k')) as [-> | ->]; [lia|].
    rewrite tempResult_add by lia.
    assert (0 < 2 ^ (31 - Z.of_nat (S k')))
      by (apply Z.pow_pos_nonneg; lia).
    lia.
Qed.

End Steps.

(** ** A vector that [count] cannot count *)

Section BeyondInt.

Lemma matching_repeat t x n :
  matching t (repeat x n) = if satisfies t x then n else 0%nat.
Proof.
  unfold matching. induction n as [| n IH]; simpl.
  - destruct (satisfies t x); reflexivity.
  - destruct (satisfies t x) eqn:E; simpl; [rewrite IH|exact IH]; reflexivity.
Qed.

(** On [2^31] equal elements [count] ends at 0 or wraps to [INT_MIN]. *)
Lemma count_repeat_wraps t x n :
  Z.of_nat n = 2 ^ 31 -> count_loop t (repeat x n) 0 < 2.
Proof.
  intros Hn.
  rewrite count_loop_wrap by (unfold in_int, INT_MIN, INT_MAX; lia).
  rewrite matching_repeat.
  destruct (satisfies t x).
  - rewrite Hn. reflexivity.
  - reflexivity.
Qed.

(** When [count] never reaches 2, [result] stays 0. *)
Lemma quiet_result_at arr k :
  (forall t, count_loop t arr 0 < 2) -> result_at arr k = 0.
Proof.
  intros Hquiet. induction k as [| k IH]; [reflexivity|].
  cbn [result_at].
  destruct (iteration_spec arr (result_at arr k) (31 - Z.of_nat k))
    as [[Hc _] | [_ ->]]; [|exact IH].
  specialize (Hquiet (tempResult_of (result_at arr k) (31 - Z.of_nat k))).
  lia.
Qed.

Lemma ones_beyond_int_facts :
  exists n, ones_beyond_int = repeat 1 n /\ Z.of_nat n = 2 ^ 31.
Proof.
  exists (Z.to_nat (2 ^ 31)). split; [reflexivity|].
  apply Z2Nat.id. apply Z.pow_nonneg. lia.
Qed.

Lemma ones_beyond_int_nonneg : Forall nonneg_int ones_beyond_int.
Proof.
  destruct ones_beyond_int_facts as (n & -> & _).
  apply Forall_forall. intros y Hy. apply repeat_spec in Hy. subst y.
  unfold nonneg_int, INT_MAX. lia.
Qed.

Lemma ones_beyond_int_length : (2 <= length ones_beyond_int)%nat.
Proof.
  destruct ones_beyond_int_facts as (n & -> & Hn).
  rewrite repeat_length. lia.
Qed.

Lemma ones_beyond_int_result k : result_at ones_beyond_int k = 0.
Proof.
  destruct ones_beyond_int_facts as (n & -> & Hn).
  apply quiet_result_at. intros t. apply count_repeat_wraps. exact Hn.
Qed.

Lemma ones_beyond_int_nth i :
  (i < 2)%nat -> nth i ones_beyond_int 0 = 1.
Proof.
  intros Hi. destruct ones_beyond_int_facts as (n & -> & Hn).
  apply nth_repeat_lt. lia.
Qed.

End BeyondInt.

(** * The properties of the specification *)

(** C1 (as amended). For a vector of at least two and at most [INT_MAX]
    non-negative 32-bit integers, [maxAndPair] returns the
    maximum of [arr[i] & arr[j]] over the pairs of distinct positions: the
    value is the AND of such a pair, no such pair gives more, and it is
    what the exhaustive pairwise scan computes. *)
Theorem maxAndPair_is_pairwise_maximum (arr : list Z) :
  Forall nonneg_int arr -> (2 <= length arr)%nat -> size_fits_int arr ->
  (exists i j, i <> j /\ (i < length arr)%nat /\ (j < length arr)%nat
               /\ maxAndPair arr = Z.land (nth i arr 0) (nth j arr 0))
  /\ (forall i j, i <> j -> (i < length arr)%nat -> (j < length arr)%nat ->
        Z.land (nth i arr 0) (nth j arr 0) <= maxAndPair arr)
  /\ Brute.maxPairwiseAnd arr = Some (maxAndPair arr).
Proof.
  intros Hall Hlen Hfit.
  destruct (greedy_is_max arr Hall Hlen Hfit) as [(i & j & Hij & Heq) Hup].
  assert (Hup' : forall i j, i <> j ->
            (i < length arr)%nat -> (j < length arr)%nat ->
            Z.land (nth i arr 0) (nth j arr 0) <= maxAndPair arr).
  { intros a b Hne Ha Hb.
    destruct (Nat.lt_total a b) as [Hlt | [Heq' | Hgt]].
    - apply Hup. lia.
    - contradiction.
    - rewrite Z.land_comm. apply Hup. lia. }
  split; [|split].
  - exists i, j. repeat split; solve [lia | exact Heq].
  - exact Hup'.
  - apply maximum_intro.
    + apply In_pair_ands. exists i, j. repeat split; solve [lia | exact Heq].
    + intros x Hx. apply In_pair_ands in Hx.
      destruct Hx as (a & b & Ha & Hb & Hne & ->).
      apply Hup'; assumption.
Qed.

Lemma maxAndPair_is_pairwise_maximum_witness :
  (Forall nonneg_int [4; 8; 12; 16]
   /\ (2 <= length [4; 8; 12; 16])%nat
   /\ size_fits_int [4; 8; 12; 16])
  /\ Brute.maxPairwiseAnd [4; 8; 12; 16] = Some (maxAndPair [4; 8; 12; 16]).
Proof.
  assert (Hall : Forall nonneg_int [4; 8; 12; 16])
    by (repeat constructor; unfold INT_MAX; simpl; lia).
  assert (Hlen : (2 <= length [4; 8; 12; 16])%nat) by (simpl; lia).
  assert (Hfit : size_fits_int [4; 8; 12; 16])
    by (unfold size_fits_int, INT_MAX; simpl; lia).
  split; [repeat split; assumption|].
  apply (maxAndPair_is_pairwise_maximum [4; 8; 12; 16] Hall Hlen Hfit).
Defined.

(** C1 as stated fails: on the vector of [2^31] elements equal to 1,
    non-negative and with more than two elements, [count] wraps to
    [INT_MIN] in the iteration of bit 0, no bit is committed and
    [maxAndPair] returns 0, less than [arr[0] & arr[1] = 1]. *)
Lemma vector_beyond_int_misses_maximum :
  Forall nonneg_int ones_beyond_int
  /\ (2 <= length ones_beyond_int)%nat
  /\ maxAndPair ones_beyond_int = 0
  /\ Z.land (nth 0 ones_beyond_int 0) (nth 1 ones_beyond_int 0) = 1
  /\ ~ Z.land (nth 0 ones_beyond_int 0) (nth 1 ones_beyond_int 0)
       <= maxAndPair ones_beyond_int.
Proof.
  assert (Hres : maxAndPair ones_beyond_int = 0)
    by (rewrite <- result_at_final; apply ones_beyond_int_result).
  assert (Hand : Z.land (nth 0 ones_beyond_int 0) (nth 1 ones_beyond_int 0)
                 = 1).
  { rewrite !ones_beyond_int_nth by lia. reflexivity. }
  split; [exact ones_beyond_int_nonneg|].
  split; [exact ones_beyond_int_length|].
  split; [exact Hres|]. split; [exact Hand|].
  rewrite Hres, Hand. lia.
Qed.

(** C3. On the vector of [main], [{4, 8, 12, 16}], [maxAndPair] returns 8,
    the AND of the elements 8 and 12 at positions 1 and 2, and not 12. *)
Theorem maxAndPair_main_sample :
  maxAndPair [4; 8; 12; 16] = 8
  /\ Z.land (nth 1 [4; 8; 12; 16] 0) (nth 2 [4; 8; 12; 16] 0) = 8
  /\ maxAndPair [4; 8; 12; 16] <> 12.
Proof.
  assert (H : maxAndPair [4; 8; 12; 16] = 8) by (vm_compute; reflexivity).
  split; [exact H | split].
  - reflexivity.
  - rewrite H. discriminate.
Qed.

(** C7. For a non-negative [x] the call on the two-element vector
    [{x, x}] returns [x]. *)
Theorem maxAndPair_equal_pair (x : Z) :
  nonneg_int x -> maxAndPair [x; x] = x.
Proof.
  intros Hx.
  destruct (greedy_is_max [x; x]) as [(i & j & Hij & Heq) _].
  - constructor; [exact Hx | constructor; [exact Hx | constructor]].
  - simpl. lia.
  - unfold size_fits_int, INT_MAX. simpl. lia.
  - simpl in Hij.
    assert (i = 0%nat /\ j = 1%nat) as [-> ->] by lia.
    rewrite Heq. simpl nth. apply Z.land_diag.
Qed.

Lemma maxAndPair_equal_pair_witness :
  nonneg_int 7 /\ maxAndPair [7; 7] = 7.
Proof.
  assert (H : nonneg_int 7) by (unfold nonneg_int, INT_MAX; lia).
  split; [exact H | apply (maxAndPair_equal_pair 7 H)].
Defined.

(** C9. For non-negative 32-bit elements the value returned lies in
    [0, 2^32 - 1], indeed in [0, INT_MAX]: it is never negative, although
    the iteration of bit 31 forms the tentative mask [0 | (1 << 31)], the
    negative [INT_MIN], which that iteration does not commit. *)
Theorem maxAndPair_in_range (arr : list Z) :
  Forall nonneg_int arr ->
  0 <= maxAndPair arr <= 2 ^ 32 - 1
  /\ maxAndPair arr <= INT_MAX
  /\ tempResult_of (result_at arr 0) 31 = INT_MIN
  /\ INT_MIN < 0
  /\ result_at arr 1 = 0.
Proof.
  intros Hall.
  pose proof (result_bounds arr 32 Hall) as Hb.
  rewrite result_at_final in Hb. unfold nonneg_int, INT_MAX in Hb.
  split; [lia|]. split; [unfold INT_MAX; lia|].
  split; [reflexivity|]. split; [reflexivity|].
  apply sign_bit_skipped. apply nonneg_weaken. exact Hall.
Qed.

Lemma maxAndPair_in_range_witness :
  Forall nonneg_int [4; 8; 12; 16]
  /\ 0 <= maxAndPair [4; 8; 12; 16] <= 2 ^ 32 - 1.
Proof.
  assert (Hall : Forall nonneg_int [4; 8; 12; 16])
    by (repeat constructor; unfold INT_MAX; simpl; lia).
  split; [exact Hall|].
  apply (maxAndPair_in_range [4; 8; 12; 16] Hall).
Defined.

(** C10. On the empty vector and on every one-element vector [count]
    never reaches 2, so [result] keeps its initial value through all the
    iterations and [maxAndPair] returns 0. *)
Theorem maxAndPair_short_input (arr : list Z) :
  (length arr < 2)%nat ->
  (forall tempResult, count_loop tempResult arr 0 < 2)
  /\ (forall k, result_at arr k = 0)
  /\ maxAndPair arr = 0.
Proof.
  intros Hlen. repeat split.
  - intros t. apply short_count. exact Hlen.
  - intros k. apply short_result_at. exact Hlen.
  - apply short_maxAndPair. exact Hlen.
Qed.

Lemma maxAndPair_short_input_witness :
  (length [5] < 2)%nat /\ maxAndPair [5] = 0.
Proof.
  assert (Hlen : (length [5] < 2)%nat) by (simpl; lia).
  split; [exact Hlen | apply (maxAndPair_short_input [5] Hlen)].
Defined.

(** C2 (as amended). A call on a vector with fewer than two elements
    returns the [int] 0; it raises no error, [InsufficientElements] or
    other. *)
Theorem short_input_returns_zero_without_error (arr : list Z) :
  (length arr < 2)%nat ->
  call_maxAndPair arr = Returns 0
  /\ (forall e, call_maxAndPair arr <> Raises e).
Proof.
  intros Hlen. unfold call_maxAndPair.
  rewrite (short_maxAndPair arr Hlen).
  split; [reflexivity | discriminate].
Qed.

Lemma short_input_returns_zero_without_error_witness :
  (length (@nil Z) < 2)%nat /\ call_maxAndPair [] = Returns 0.
Proof.
  assert (Hlen : (length (@nil Z) < 2)%nat) by (simpl; lia).
  split; [exact Hlen|].
  apply (short_input_returns_zero_without_error [] Hlen).
Defined.

(** C2 as stated fails: on the one-element vector [{5}] the call returns
    the numeric value 0 and does not raise [InsufficientElements]. *)
Lemma singleton_call_returns_number :
  (length [5] < 2)%nat
  /\ call_maxAndPair [5] = Returns 0
  /\ call_maxAndPair [5] <> Raises InsufficientElements.
Proof.
  split; [simpl; lia|].
  split; [vm_compute; reflexivity | discriminate].
Qed.

(** C4 (as amended). Every iteration, on every input, leaves [result]
    unchanged or sets exactly the bit of the iteration, which was clear;
    [result] does not decrease in the iterations of the bits 30 to 0, and
    in none of the 32 iterations when the elements are non-negative. *)
Theorem iteration_sets_current_bit_only (arr : list Z) (k : nat) :
  (k < 32)%nat ->
  let bit := 31 - Z.of_nat k in
  let r := result_at arr k in
  let r' := result_at arr (S k) in
  (r' = r
   \/ (r' = tempResult_of r bit
       /\ Z.testbit r bit = false
       /\ forall n, 0 <= n < 32 ->
            Z.testbit r' n = if n =? bit then true else Z.testbit r n))
  /\ ((0 < k)%nat -> r <= r')
  /\ (Forall (fun x => 0 <= x) arr -> r <= r').
Proof.
  intros Hk bit r r'. split; [|split].
  - destruct (step_cases arr k) as [H | H]; [left; exact H | right].
    split; [exact H|]. split.
    + apply low_clear. lia.
    + intros n Hn. unfold r'. rewrite H.
      apply tempResult_bits; assumption.
  - intros Hpos. apply step_monotone; auto.
  - intros Hall. apply step_monotone; auto.
Qed.

Lemma iteration_sets_current_bit_only_witness :
  (28 < 32)%nat
  /\ result_at [4; 8; 12; 16] 28 <= result_at [4; 8; 12; 16] 29.
Proof.
  assert (Hk : (28 < 32)%nat) by lia.
  split; [exact Hk|].
  destruct (iteration_sets_current_bit_only [4; 8; 12; 16] 28 Hk)
    as (_ & Hlate & _).
  apply Hlate. lia.
Defined.

(** C4 as stated fails: on [{-1, -1}] the iteration of bit 31 commits the
    mask [INT_MIN], so [result] goes from 0 down to -2147483648. *)
Lemma negative_pair_decreases_result :
  result_at [-1; -1] 0 = 0
  /\ result_at [-1; -1] 1 = INT_MIN
  /\ ~ result_at [-1; -1] 0 <= result_at [-1; -1] 1.
Proof.
  split; [reflexivity|]. split; [vm_compute; reflexivity|].
  vm_compute. intros H. apply H. reflexivity.
Qed.

(** C5 (as amended). For a vector of at least two elements,
    non-negative or not, and every iteration, with [result] the mask before
    it: the tentative mask of the code is [result | (1 << bit)], that is
    [result] with the bit of the iteration, clear before, set as well
    ([1 << 31] being [-2^31]); after the iteration two elements at
    distinct positions contain the new mask; the tentative mask is
    committed only if two elements at distinct positions contain all its
    bits, and, when the vector has at most [INT_MAX] elements, if and
    only if; otherwise [result] is kept. *)
Theorem mask_contained_twice_and_commit_rule (arr : list Z) (k : nat) :
  (2 <= length arr)%nat -> (k < 32)%nat ->
  let bit := 31 - Z.of_nat k in
  let r := result_at arr k in
  let r' := result_at arr (S k) in
  let t := Z.lor r (if bit =? 31 then - 2 ^ 31 else 2 ^ bit) in
  tempResult_of r bit = t
  /\ Z.land t r = r
  /\ Z.testbit r bit = false
  /\ Z.testbit t bit = true
  /\ contained_twice arr r'
  /\ (r' = t -> contained_twice arr t)
  /\ (size_fits_int arr -> (r' = t <-> contained_twice arr t))
  /\ (r' = t \/ r' = r).
Proof.
  intros Hlen Hk bit r r' t.
  assert (Ht : tempResult_of r bit = t).
  { unfold tempResult_of, t.
    destruct (Z.eqb_spec bit 31) as [-> | Hne]; [reflexivity|].
    rewrite bitmask_low by (unfold bit in *; lia). reflexivity. }
  assert (Hsome : forall m, (2 <= matching m arr)%nat -> contained_twice arr m).
  { intros m Hm. destruct (matching_two m arr Hm) as (i & j & Hij & Hi & Hj).
    exists i, j. repeat split; solve [lia | assumption]. }
  assert (Honly : r' = t -> contained_twice arr t).
  { intros Heq. apply Hsome. apply count_ge2_sound. rewrite <- Ht.
    destruct (iteration_spec arr r bit) as [[Hc _] | [_ Hr]];
      [exact Hc | exfalso].
    apply (tempResult_fresh arr k Hk).
    fold bit r. rewrite Ht, <- Heq. exact Hr. }
  split; [exact Ht|].
  split.
  { rewrite <- Ht. unfold tempResult_of.
    apply Z.bits_inj'. intros n Hn.
    rewrite Z.land_spec, Z.lor_spec.
    destruct (Z.testbit r n), (Z.testbit (bitmask bit) n); reflexivity. }
  split; [apply low_clear; unfold bit; lia|].
  split.
  { rewrite <- Ht. unfold r, bit.
    rewrite tempResult_bits by (assumption || lia).
    rewrite Z.eqb_refl. reflexivity. }
  split; [apply Hsome; apply achievable; exact Hlen|].
  split; [exact Honly|].
  split.
  - intros Hfit. split; [exact Honly|].
    intros (i & j & Hne & Hi & Hj & Hci & Hcj).
    assert (Hm : (2 <= matching t arr)%nat).
    { destruct (Nat.lt_total i j) as [Hlt | [Heq | Hgt]].
      - apply (two_matching t arr i j); auto.
      - contradiction.
      - apply (two_matching t arr j i); auto. }
    destruct (iteration_spec arr r bit) as [[_ Hr] | [Hc _]];
      [rewrite <- Ht; exact Hr | exfalso].
    rewrite Ht, count_exact in Hc by exact Hfit. lia.
  - rewrite <- Ht.
    destruct (step_cases arr k) as [H | H]; [right | left]; exact H.
Qed.

Lemma mask_contained_twice_and_commit_rule_witness :
  ((2 <= length [4; 8; 12; 16]%Z)%nat /\ (28 < 32)%nat
   /\ size_fits_int [4; 8; 12; 16])
  /\ result_at [4; 8; 12; 16] 28 = 0
  /\ result_at [4; 8; 12; 16] 29 = Z.lor 0 (2 ^ 3)
  /\ contained_twice [4; 8; 12; 16] (Z.lor 0 (2 ^ 3)).
Proof.
  assert (Hlen : (2 <= length [4; 8; 12; 16]%Z)%nat) by (simpl; lia).
  assert (Hk : (28 < 32)%nat) by lia.
  assert (Hfit : size_fits_int [4; 8; 12; 16])
    by (unfold size_fits_int, INT_MAX; simpl; lia).
  split; [repeat split; assumption|].
  destruct (mask_contained_twice_and_commit_rule [4; 8; 12; 16] 28 Hlen Hk)
    as (_ & _ & _ & _ & _ & Honly & _ & _).
  assert (Hr : result_at [4; 8; 12; 16] 28 = 0) by (vm_compute; reflexivity).
  assert (Hr' : result_at [4; 8; 12; 16] 29 = Z.lor 0 (2 ^ 3))
    by (vm_compute; reflexivity).
  split; [exact Hr|]. split; [exact Hr'|].
  apply Honly. vm_compute. reflexivity.
Defined.

(** C5 as stated fails: on the vector of [2^31] elements equal to 1 the
    last iteration has the tentative mask 1, which the elements at the
    positions 0 and 1 contain, and yet does not commit it, because
    [count] has wrapped to [INT_MIN]. *)
Lemma vector_beyond_int_breaks_commit_rule :
  Forall nonneg_int ones_beyond_int
  /\ (2 <= length ones_beyond_int)%nat
  /\ tempResult_of (result_at ones_beyond_int 31) 0 = 1
  /\ contained_twice ones_beyond_int
       (tempResult_of (result_at ones_beyond_int 31) 0)
  /\ result_at ones_beyond_int 32
     <> tempResult_of (result_at ones_beyond_int 31) 0.
Proof.
  assert (Ht : tempResult_of (result_at ones_beyond_int 31) 0 = 1)
    by (rewrite ones_beyond_int_result; reflexivity).
  split; [exact ones_beyond_int_nonneg|].
  split; [exact ones_beyond_int_length|].
  split; [exact Ht|].
  rewrite Ht, ones_beyond_int_result. split; [|discriminate].
  pose proof ones_beyond_int_length as Hlen.
  exists 0%nat, 1%nat.
  rewrite !ones_beyond_int_nth by lia.
  repeat split; solve [lia | reflexivity].
Qed.

(** C6. [maxAndPair] returns the same value on a vector and on every
    permutation of it. *)
Theorem maxAndPair_permutation (arr arr' : list Z) :
  Permutation arr arr' -> maxAndPair arr = maxAndPair arr'.
Proof.
  intros Hp. unfold maxAndPair. apply bit_loop_perm. exact Hp.
Qed.

Lemma maxAndPair_permutation_witness :
  Permutation [4; 8; 12; 16] [8; 4; 12; 16]
  /\ maxAndPair [4; 8; 12; 16] = maxAndPair [8; 4; 12; 16].
Proof.
  assert (Hp : Permutation [4; 8; 12; 16] [8; 4; 12; 16])
    by apply perm_swap.
  split; [exact Hp|].
  apply (maxAndPair_permutation [4; 8; 12; 16] [8; 4; 12; 16] Hp).
Defined.

(** C8. A call leaves the caller's vector as it was, with the same length
    and the same element at every position, and returns the value of the
    pure function of that vector; a second call on the same vector returns
    the same value, so nothing is kept from one call to the next. *)
Theorem maxAndPair_leaves_vector_unchanged (arr : list Z) :
  runState Stateful.maxAndPair arr = (maxAndPair arr, arr)
  /\ length (execState Stateful.maxAndPair arr) = length arr
  /\ (forall i, nth i (execState Stateful.maxAndPair arr) 0 = nth i arr 0)
  /\ runState Stateful.call_twice arr
     = ((maxAndPair arr, maxAndPair arr), arr).
Proof.
  assert (Hexec : execState Stateful.maxAndPair arr = arr)
    by (unfold execState; rewrite maxAndPair_run; reflexivity).
  split; [apply maxAndPair_run|].
  split; [rewrite Hexec; reflexivity|].
  split; [intros i; rewrite Hexec; reflexivity|].
  unfold Stateful.call_twice.
  rewrite run_bind, maxAndPair_run. cbn [fst snd].
  rewrite run_bind, maxAndPair_run. reflexivity.
Qed.

(** * Further properties of the code *)

(** ** Signed and unsigned readings of an [int] *)

Section Unsigned.

Lemma int_high_bits z n :
  in_int z -> 31 <= n -> Z.testbit z n = (z <? 0).
Proof.
  unfold in_int, INT_MIN, INT_MAX. intros Hz Hn.
  destruct (Z.ltb_spec z 0) as [Hneg | Hpos].
  - apply Z.bits_above_log2_neg; [exact Hneg|].
    destruct (Z.eq_dec (Z.pred (- z)) 0) as [-> | Hne]; [simpl; lia|].
    apply Z.lt_le_trans with 31; [|exact Hn].
    apply Z.log2_lt_pow2; lia.
  - destruct (Z.eq_dec z 0) as [-> | Hne]; [apply Z.bits_0|].
    apply Z.bits_above_log2; [exact Hpos|].
    apply Z.lt_le_trans with 31; [|exact Hn].
    apply Z.log2_lt_pow2; lia.
Qed.

Lemma in_int_sign_extended z : in_int z -> sign_extended z.
Proof.
  intros Hz n Hn.
  rewrite (int_high_bits z n Hz Hn), (int_high_bits z 31 Hz); [reflexivity|lia].
Qed.

Lemma sign_extended_land a b :
  sign_extended a -> sign_extended b -> sign_extended (Z.land a b).
Proof.
  intros Ha Hb n Hn. rewrite !Z.land_spec, (Ha n Hn), (Hb n Hn). reflexivity.
Qed.

Lemma sign_extended_lor a b :
  sign_extended a -> sign_extended b -> sign_extended (Z.lor a b).
Proof.
  intros Ha Hb n Hn. rewrite !Z.lor_spec, (Ha n Hn), (Hb n Hn). reflexivity.
Qed.

Lemma bitmask_sign_extended c : sign_extended (bitmask c).
Proof. apply in_int_sign_extended. apply wrap32_range. Qed.

Lemma testbit_as_unsigned z n :
  0 <= n < 32 -> Z.testbit (as_unsigned z) n = Z.testbit z n.
Proof. intros Hn. unfold as_unsigned. apply Z.mod_pow2_bits_low. lia. Qed.

Lemma testbit_as_unsigned_high z n :
  32 <= n -> Z.testbit (as_unsigned z) n = false.
Proof. intros Hn. unfold as_unsigned. apply Z.mod_pow2_bits_high. lia. Qed.

Lemma as_unsigned_range z : 0 <= as_unsigned z < 2 ^ 32.
Proof. unfold as_unsigned. apply Z.mod_pos_bound. lia. Qed.

(** Two [int]s with the same bit pattern are equal. *)
Lemma as_unsigned_inj a b :
  sign_extended a -> sign_extended b ->
  as_unsigned a = as_unsigned b -> a = b.
Proof.
  intros Ha Hb Heq. apply Z.bits_inj'. intros n Hn.
  assert (Hlow : forall m, 0 <= m < 32 -> Z.testbit a m = Z.testbit b m).
  { intros m Hm.
    rewrite <- (testbit_as_unsigned a m Hm), <- (testbit_as_unsigned b m Hm).
    rewrite Heq. reflexivity. }
  destruct (Z.lt_ge_cases n 32) as [Hlt | Hge].
  - apply Hlow. lia.
  - rewrite (Ha n), (Hb n) by lia. apply Hlow. lia.
Qed.

Lemma as_unsigned_land a b :
  as_unsigned (Z.land a b) = Z.land (as_unsigned a) (as_unsigned b).
Proof.
  apply Z.bits_inj'. intros n Hn. rewrite Z.land_spec.
  destruct (Z.lt_ge_cases n 32) as [Hlt | Hge].
  - rewrite !testbit_as_unsigned, Z.land_spec by lia. reflexivity.
  - rewrite !testbit_as_unsigned_high by lia. reflexivity.
Qed.

Lemma as_unsigned_lor a b :
  as_unsigned (Z.lor a b) = Z.lor (as_unsigned a) (as_unsigned b).
Proof.
  apply Z.bits_inj'. intros n Hn. rewrite Z.lor_spec.
  destruct (Z.lt_ge_cases n 32) as [Hlt | Hge].
  - rewrite !testbit_as_unsigned, Z.lor_spec by lia. reflexivity.
  - rewrite !testbit_as_unsigned_high by lia. reflexivity.
Qed.

Lemma as_unsigned_bitmask c : 0 <= c < 32 -> as_unsigned (bitmask c) = 2 ^ c.
Proof.
  intros Hc. apply Z.bits_inj'. intros n Hn.
  rewrite Z.pow2_bits_eqb by lia.
  destruct (Z.lt_ge_cases n 32) as [Hlt | Hge].
  - rewrite testbit_as_unsigned, bitmask_bits by lia. apply Z.eqb_sym.
  - rewrite testbit_as_unsigned_high by lia.
    symmetry. apply Z.eqb_neq. lia.
Qed.

(** Containment of bit patterns is containment of the [int]s. *)
Lemma contains_from_unsigned p t :
  sign_extended p -> sign_extended t ->
  Z.land (as_unsigned p) (as_unsigned t) = as_unsigned t ->
  Z.land p t = t.
Proof.
  intros Hp Ht H. rewrite <- as_unsigned_land in H.
  apply as_unsigned_inj in H; auto using sign_extended_land.
Qed.

Lemma contains_to_unsigned p t :
  Z.land p t = t -> Z.land (as_unsigned p) (as_unsigned t) = as_unsigned t.
Proof. intros H. rewrite <- as_unsigned_land, H. reflexivity. Qed.

(** A negative [int] is one that contains the sign mask. *)
Lemma contains_sign_iff x :
  in_int x -> (Z.land x INT_MIN = INT_MIN <-> x < 0).
Proof.
  intros Hx. split.
  - intros H.
    assert (Hn : Z.land x INT_MIN < 0) by (rewrite H; reflexivity).
    apply Z.land_neg in Hn. tauto.
  - intros Hneg. apply Z.bits_inj'. intros n Hn.
    rewrite Z.land_spec.
    destruct (Z.lt_ge_cases n 31) as [Hlt | Hge].
    + replace INT_MIN with (Z.lnot (Z.ones 31)) by reflexivity.
      rewrite Z.lnot_spec, Z.ones_spec_low by lia.
      apply andb_false_r.
    + rewrite (int_high_bits x n Hx Hge).
      destruct (Z.ltb_spec x 0); [reflexivity | lia].
Qed.

End Unsigned.

(** ** [maxAndPair] on arbitrary [int]s *)

Section AnyInts.

Variable arr : list Z.

Lemma result_sign_extended k : sign_extended (result_at arr k).
Proof.
  induction k as [| k IH].
  - intros n Hn. simpl. rewrite !Z.bits_0. reflexivity.
  - destruct (step_cases arr k) as [-> | ->]; [exact IH|].
    apply sign_extended_lor; [exact IH | apply bitmask_sign_extended].
Qed.

Lemma nth_in_int i :
  Forall in_int arr -> (i < length arr)%nat -> in_int (nth i arr 0).
Proof.
  intros Hall Hi. rewrite Forall_forall in Hall.
  apply Hall. apply nth_In. exact Hi.
Qed.

(** On the bit patterns the tentative mask is the current one plus the
    weight of the bit, the sign bit included. *)
Lemma as_unsigned_tempResult k :
  (k < 32)%nat ->
  as_unsigned (tempResult_of (result_at arr k) (31 - Z.of_nat k))
  = as_unsigned (result_at arr k) + 2 ^ (31 - Z.of_nat k).
Proof.
  intros Hk. unfold tempResult_of.
  rewrite as_unsigned_lor, as_unsigned_bitmask by lia.
  apply lor_fresh_bit; [lia|].
  rewrite testbit_as_unsigned by lia.
  apply low_clear. lia.
Qed.

(** No pair beats the mask, as bit patterns, on the bits decided so
    far. *)
Lemma dominated_unsigned k :
  Forall in_int arr -> size_fits_int arr -> (k <= 32)%nat ->
  forall i j, (i < j < length arr)%nat ->
    as_unsigned (Z.land (nth i arr 0) (nth j arr 0)) / 2 ^ (32 - Z.of_nat k)
    <= as_unsigned (result_at arr k) / 2 ^ (32 - Z.of_nat k).
Proof.
  intros Hall Hfit Hk i j Hij.
  assert (Hsp : sign_extended (Z.land (nth i arr 0) (nth j arr 0))).
  { apply sign_extended_land; apply in_int_sign_extended;
      apply nth_in_int; auto; lia. }
  set (p := Z.land (nth i arr 0) (nth j arr 0)) in *.
  pose proof (as_unsigned_range p) as Hp.
  induction k as [| k IH].
  - change (32 - Z.of_nat 0) with 32.
    rewrite Z.div_small by exact Hp. simpl result_at.
    reflexivity.
  - specialize (IH ltac:(lia)).
    set (c := 31 - Z.of_nat k).
    assert (Hc : 0 <= c <= 31) by (unfold c; lia).
    replace (32 - Z.of_nat (S k)) with c by (unfold c; lia).
    replace (32 - Z.of_nat k) with (Z.succ c) in IH by (unfold c; lia).
    rewrite Z.pow_succ_r, (Z.mul_comm 2), <- !Z.div_div in IH by lia.
    assert (Hclear : Z.testbit (as_unsigned (result_at arr k)) c = false).
    { rewrite testbit_as_unsigned by lia. apply low_clear. unfold c. lia. }
    apply Z.testbit_false in Hclear; [|lia].
    pose proof (as_unsigned_tempResult k ltac:(lia)) as Hadd.
    fold c in Hadd.
    assert (Hdiv : (as_unsigned (result_at arr k) + 2 ^ c) / 2 ^ c
                   = as_unsigned (result_at arr k) / 2 ^ c + 1).
    { replace (as_unsigned (result_at arr k) + 2 ^ c)
        with (as_unsigned (result_at arr k) + 1 * 2 ^ c) by ring.
      apply Z.div_add. lia. }
    assert (Hnext : as_unsigned p / 2 ^ c
                    <= as_unsigned (result_at arr k) / 2 ^ c + 1).
    { revert IH Hclear.
      generalize (as_unsigned p / 2 ^ c)
                 (as_unsigned (result_at arr k) / 2 ^ c).
      intros P R HPR HR. clear - HPR HR.
      Z.to_euclidean_division_equations. lia. }
    cbn [result_at]. fold c.
    destruct (iteration_spec arr (result_at arr k) c)
      as [[_ ->] | [Hcount ->]].
    + rewrite Hadd, Hdiv. exact Hnext.
    + destruct (Z.le_gt_cases (as_unsigned p / 2 ^ c)
                  (as_unsigned (result_at arr k) / 2 ^ c))
        as [Hle | Hgt]; [exact Hle | exfalso].
      set (t := tempResult_of (result_at arr k) c) in *.
      assert (Hagree : as_unsigned p / 2 ^ c = as_unsigned t / 2 ^ c).
      { rewrite Hadd, Hdiv. revert Hnext Hgt.
        generalize (as_unsigned p / 2 ^ c)
                   (as_unsigned (result_at arr k) / 2 ^ c).
        intros P R HPR HR. clear - HPR HR. lia. }
      apply high_agree in Hagree; [|lia|].
      * apply contains_from_unsigned in Hagree; [|exact Hsp|].
        -- rewrite count_exact in Hcount by exact Hfit.
           assert (2 <= matching t arr)%nat.
           { apply (two_matching _ arr i j Hij).
             - apply (pair_contains_l _ _ _ Hagree).
             - apply (pair_contains_r _ _ _ Hagree). }
           lia.
        -- apply sign_extended_lor;
             [apply result_sign_extended | apply bitmask_sign_extended].
      * intros n Hn.
        rewrite testbit_as_unsigned by lia.
        unfold t, c. rewrite tempResult_bits by lia.
        fold c. rewrite (proj2 (Z.eqb_neq n c)) by lia.
        apply low_clear. unfold c in Hn. lia.
Qed.

(** The result is the AND of a pair, and as a bit pattern no pair gives
    more. *)
Lemma greedy_is_unsigned_max :
  Forall in_int arr -> (2 <= length arr)%nat -> size_fits_int arr ->
  (exists i j, (i < j < length arr)%nat
               /\ maxAndPair arr = Z.land (nth i arr 0) (nth j arr 0))
  /\ (forall i j, (i < j < length arr)%nat ->
        as_unsigned (Z.land (nth i arr 0) (nth j arr 0))
        <= as_unsigned (maxAndPair arr)).
Proof.
  intros Hall Hlen Hfit.
  assert (Hup : forall i j, (i < j < length arr)%nat ->
                  as_unsigned (Z.land (nth i arr 0) (nth j arr 0))
                  <= as_unsigned (maxAndPair arr)).
  { intros i j Hij.
    pose proof (dominated_unsigned 32 Hall Hfit (Nat.le_refl 32) i j Hij) as H.
    change (2 ^ (32 - Z.of_nat 32)) with 1 in H.
    rewrite !Z.div_1_r, result_at_final in H. exact H. }
  split; [|exact Hup].
  destruct (matching_two _ arr (achievable arr 32 Hlen))
    as (i & j & Hij & Hi & Hj).
  exists i, j. split; [exact Hij|].
  pose proof (pair_contains _ _ _ Hi Hj) as Hc.
  apply contains_to_unsigned in Hc.
  apply contained_le in Hc; [|apply as_unsigned_range].
  rewrite <- result_at_final.
  apply as_unsigned_inj.
  - apply result_sign_extended.
  - apply sign_extended_land; apply in_int_sign_extended;
      apply nth_in_int; auto; lia.
  - specialize (Hup i j Hij). rewrite <- result_at_final in Hup. lia.
Qed.

(** After the iteration of bit 31 the sign of [result] does not change. *)
Lemma sign_kept k :
  (1 <= k)%nat -> (result_at arr k < 0 <-> result_at arr 1 < 0).
Proof.
  induction k as [| k IH]; [lia|]. intros _.
  destruct k as [| k']; [reflexivity|].
  rewrite <- IH by lia.
  destruct (Nat.le_gt_cases 32 (S k')) as [Hbig | Hsmall].
  - destruct (step_cases arr (S k')) as [-> | ->]; [reflexivity|].
    unfold tempResult_of. rewrite Z.lor_neg.
    assert (Hm : in_int (bitmask (31 - Z.of_nat (S k'))))
      by apply wrap32_range.
    assert (Hz : bitmask (31 - Z.of_nat (S k')) = 0).
    { unfold bitmask. rewrite Z.shiftl_1_l, Z.pow_neg_r by lia. reflexivity. }
    rewrite Hz. lia.
  - destruct (step_cases arr (S k')) as [-> | ->]; [reflexivity|].
    rewrite tempResult_add by lia.
    pose proof (low_clear arr (S k') (31 - Z.of_nat (S k'))) as Hclear.
    unfold tempResult_of in *.
    assert (Hlor : Z.lor (result_at arr (S k')) (2 ^ (31 - Z.of_nat (S k')))
                   = result_at arr (S k') + 2 ^ (31 - Z.of_nat (S k')))
      by (apply lor_fresh_bit; [lia | apply Hclear; lia]).
    rewrite <- Hlor, Z.lor_neg.
    assert (0 < 2 ^ (31 - Z.of_nat (S k'))) by (apply Z.pow_pos_nonneg; lia).
    lia.
Qed.

Lemma first_iteration_sign :
  result_at arr 1 < 0 <-> 2 <= count_loop INT_MIN arr 0.
Proof.
  cbn [result_at]. change (31 - Z.of_nat 0) with 31.
  change (tempResult_of 0 31) with INT_MIN in *.
  unfold iteration. change (tempResult_of 0 31) with INT_MIN. cbv zeta.
  destruct (Z.leb_spec 2 (count_loop INT_MIN arr 0)) as [H | H].
  - split; [intros _; exact H | intros _; reflexivity].
  - split; [intros Hn; lia | lia].
Qed.

End AnyInts.

Section ZeroElements.

Lemma tempResult_nonzero result bit :
  0 <= bit < 32 -> tempResult_of result bit <> 0.
Proof.
  intros Hb Hz.
  assert (H : Z.testbit (tempResult_of result bit) bit = true).
  { unfold tempResult_of. rewrite Z.lor_spec, bitmask_bits by lia.
    rewrite Z.eqb_refl. apply orb_true_r. }
  rewrite Hz, Z.bits_0 in H. discriminate.
Qed.

Lemma iteration_skip_zero arr result bit :
  0 <= bit < 32 -> iteration (0 :: arr) result bit = iteration arr result bit.
Proof.
  intros Hb. unfold iteration. cbn [count_loop].
  unfold satisfies at 1. rewrite Z.land_0_l.
  rewrite (proj2 (Z.eqb_neq 0 (tempResult_of result bit)));
    [reflexivity|].
  intros H. symmetry in H. revert H. apply tempResult_nonzero. exact Hb.
Qed.

Lemma bit_loop_skip_zero arr nbits :
  (nbits <= 32)%nat ->
  forall result, bit_loop (0 :: arr) nbits result = bit_loop arr nbits result.
Proof.
  induction nbits as [| bit IH]; intros Hn result; simpl.
  - reflexivity.
  - rewrite iteration_skip_zero by lia. apply IH. lia.
Qed.

End ZeroElements.

(** X1. On a vector of at least two [int]s of either sign, [maxAndPair]
    returns the AND of two elements at distinct positions, and the AND of
    no such pair is larger when both are read as unsigned 32-bit
    values. *)
Theorem maxAndPair_unsigned_maximum (arr : list Z) :
  Forall in_int arr -> (2 <= length arr)%nat -> size_fits_int arr ->
  (exists i j, i <> j /\ (i < length arr)%nat /\ (j < length arr)%nat
               /\ maxAndPair arr = Z.land (nth i arr 0) (nth j arr 0))
  /\ (forall i j, i <> j -> (i < length arr)%nat -> (j < length arr)%nat ->
        as_unsigned (Z.land (nth i arr 0) (nth j arr 0))
        <= as_unsigned (maxAndPair arr)).
Proof.
  intros Hall Hlen Hfit.
  destruct (greedy_is_unsigned_max arr Hall Hlen Hfit)
    as [(i & j & Hij & Heq) Hup].
  split.
  - exists i, j. repeat split; solve [lia | exact Heq].
  - intros a b Hne Ha Hb.
    destruct (Nat.lt_total a b) as [Hlt | [Heq' | Hgt]].
    + apply Hup. lia.
    + contradiction.
    + rewrite Z.land_comm. apply Hup. lia.
Qed.

Lemma maxAndPair_unsigned_maximum_witness :
  (Forall in_int [-1; -1; 5; 5]
   /\ (2 <= length [-1; -1; 5; 5]%Z)%nat
   /\ size_fits_int [-1; -1; 5; 5])
  /\ as_unsigned (Z.land (nth 2 [-1; -1; 5; 5] 0) (nth 3 [-1; -1; 5; 5] 0))
     <= as_unsigned (maxAndPair [-1; -1; 5; 5]).
Proof.
  assert (Hall : Forall in_int [-1; -1; 5; 5])
    by (repeat constructor; unfold INT_MIN, INT_MAX; simpl; lia).
  assert (Hlen : (2 <= length [-1; -1; 5; 5]%Z)%nat) by (simpl; lia).
  assert (Hfit : size_fits_int [-1; -1; 5; 5])
    by (unfold size_fits_int, INT_MAX; simpl; lia).
  split; [repeat split; assumption|].
  destruct (maxAndPair_unsigned_maximum [-1; -1; 5; 5] Hall Hlen Hfit)
    as (_ & Hup).
  apply Hup; simpl; lia.
Defined.

(** X2. On a vector of [int]s the value returned is negative exactly when
    at least two elements are negative. *)
Theorem maxAndPair_negative_iff (arr : list Z) :
  Forall in_int arr -> size_fits_int arr ->
  (maxAndPair arr < 0 <->
   exists i j, (i < j < length arr)%nat
               /\ nth i arr 0 < 0 /\ nth j arr 0 < 0).
Proof.
  intros Hall Hfit.
  rewrite <- result_at_final, (sign_kept arr 32%nat) by lia.
  rewrite first_iteration_sign. split.
  - intros Hc. apply count_ge2_sound in Hc.
    destruct (matching_two _ arr Hc) as (i & j & Hij & Hi & Hj).
    exists i, j. split; [exact Hij|].
    split; apply contains_sign_iff; auto; apply nth_in_int; auto; lia.
  - intros (i & j & Hij & Hi & Hj).
    rewrite count_exact by exact Hfit.
    assert (2 <= matching INT_MIN arr)%nat; [|lia].
    apply (two_matching _ arr i j Hij);
      apply contains_sign_iff; auto; apply nth_in_int; auto; lia.
Qed.

Lemma maxAndPair_negative_iff_witness :
  (Forall in_int [-1; -1; 5; 5] /\ size_fits_int [-1; -1; 5; 5])
  /\ maxAndPair [-1; -1; 5; 5] < 0.
Proof.
  assert (Hall : Forall in_int [-1; -1; 5; 5])
    by (repeat constructor; unfold INT_MIN, INT_MAX; simpl; lia).
  assert (Hfit : size_fits_int [-1; -1; 5; 5])
    by (unfold size_fits_int, INT_MAX; simpl; lia).
  split; [split; assumption|].
  apply (maxAndPair_negative_iff [-1; -1; 5; 5] Hall Hfit).
  exists 0%nat, 1%nat. simpl. lia.
Defined.

(** X3. For non-negative elements, one more element never lowers the
    value returned, as long as the enlarged vector has at most [INT_MAX]
    elements. *)
Theorem maxAndPair_grows_with_elements (x : Z) (arr : list Z) :
  Forall nonneg_int (x :: arr) -> size_fits_int (x :: arr) ->
  maxAndPair arr <= maxAndPair (x :: arr).
Proof.
  intros Hall Hfit.
  assert (Hall' : Forall nonneg_int arr) by (inversion Hall; assumption).
  destruct (Nat.le_gt_cases 2 (length arr)) as [Hlen | Hshort].
  - assert (Hfit' : size_fits_int arr).
    { unfold size_fits_int in *. simpl length in Hfit. lia. }
    destruct (greedy_is_max arr Hall' Hlen Hfit') as [(i & j & Hij & ->) _].
    destruct (greedy_is_max (x :: arr) Hall) as [_ Hup];
      [simpl; lia | exact Hfit |].
    apply (Hup (S i) (S j)). simpl. lia.
  - rewrite (short_maxAndPair arr Hshort).
    pose proof (result_bounds (x :: arr) 32%nat Hall) as Hb.
    rewrite result_at_final in Hb. unfold nonneg_int in Hb. lia.
Qed.

Lemma maxAndPair_grows_with_elements_witness :
  (Forall nonneg_int [12; 4; 8; 16] /\ size_fits_int [12; 4; 8; 16])
  /\ maxAndPair [4; 8; 16] <= maxAndPair [12; 4; 8; 16].
Proof.
  assert (Hall : Forall nonneg_int [12; 4; 8; 16])
    by (repeat constructor; unfold INT_MAX; simpl; lia).
  assert (Hfit : size_fits_int [12; 4; 8; 16])
    by (unfold size_fits_int, INT_MAX; simpl; lia).
  split; [split; assumption|].
  apply (maxAndPair_grows_with_elements 12 [4; 8; 16] Hall Hfit).
Defined.

(** X4. For non-negative elements the value returned is 0 exactly when
    the elements at any two distinct positions share no bit. *)
Theorem maxAndPair_zero_iff_disjoint (arr : list Z) :
  Forall nonneg_int arr -> size_fits_int arr ->
  (maxAndPair arr = 0 <->
   forall i j, i <> j -> (i < length arr)%nat -> (j < length arr)%nat ->
     Z.land (nth i arr 0) (nth j arr 0) = 0).
Proof.
  intros Hall Hfit.
  destruct (Nat.le_gt_cases 2 (length arr)) as [Hlen | Hshort].
  - destruct (greedy_is_max arr Hall Hlen Hfit) as [(i & j & Hij & Heq) Hup].
    split.
    + intros Hz a b Hne Ha Hb.
      pose proof (pair_bounds _ _ (nth_nonneg_int arr a Hall Ha)
                    (nth_nonneg_int arr b Hall Hb)) as Hp.
      unfold nonneg_int in Hp.
      assert (Z.land (nth a arr 0) (nth b arr 0) <= maxAndPair arr).
      { destruct (Nat.lt_total a b) as [Hlt | [Heq' | Hgt]].
        - apply Hup. lia.
        - contradiction.
        - rewrite Z.land_comm. apply Hup. lia. }
      lia.
    + intros Hdis. rewrite Heq. apply Hdis; lia.
  - split.
    + intros _ a b Hne Ha Hb. lia.
    + intros _. apply short_maxAndPair. exact Hshort.
Qed.

Lemma maxAndPair_zero_iff_disjoint_witness :
  (Forall nonneg_int [1; 2; 4; 8] /\ size_fits_int [1; 2; 4; 8])
  /\ Z.land (nth 1 [1; 2; 4; 8] 0) (nth 3 [1; 2; 4; 8] 0) = 0.
Proof.
  assert (Hall : Forall nonneg_int [1; 2; 4; 8])
    by (repeat constructor; unfold INT_MAX; simpl; lia).
  assert (Hfit : size_fits_int [1; 2; 4; 8])
    by (unfold size_fits_int, INT_MAX; simpl; lia).
  split; [split; assumption|].
  apply (proj1 (maxAndPair_zero_iff_disjoint [1; 2; 4; 8] Hall Hfit));
    [vm_compute; reflexivity | lia | simpl; lia | simpl; lia].
Defined.

(** X5. A zero element, wherever it stands, does not change the value
    returned, on any vector. *)
Theorem maxAndPair_ignores_zero (before after : list Z) :
  maxAndPair (before ++ 0 :: after) = maxAndPair (before ++ after).
Proof.
  unfold maxAndPair.
  rewrite <- (bit_loop_perm (0 :: before ++ after) (before ++ 0 :: after) 32%nat
                (Permutation_middle before after 0)).
  apply bit_loop_skip_zero. lia.
Qed.

(** ** The Josephus recursion *)

Section JosephusRecursion.

Import Josephus.

Lemma josephus_call fuel n k :
  josephus (S fuel) n k
  = if n =? 1 then Some 0
    else match josephus fuel (wrap32 (n - 1)) k with
         | Some r => Some (Z.rem (wrap32 (r + k)) n)
         | None => None
         end.
Proof. reflexivity. Qed.

(** More fuel does not change a result. *)
Lemma josephus_more_fuel fuel : forall n k r,
  josephus fuel n k = Some r -> josephus (S fuel) n k = Some r.
Proof.
  induction fuel as [| f IH]; intros n k r H; [discriminate|].
  rewrite josephus_call in H. rewrite josephus_call.
  destruct (n =? 1); [exact H|].
  destruct (josephus f (wrap32 (n - 1)) k) as [r'|] eqn:E; [|discriminate].
  rewrite (IH _ _ _ E). exact H.
Qed.

(** One call above the base case, when [n - 1] and the sum do not
    overflow. *)
Lemma josephus_unfold fuel n k r' :
  2 <= n <= INT_MAX ->
  josephus fuel (n - 1) k = Some r' ->
  in_int (r' + k) ->
  josephus (S fuel) n k = Some (Z.rem (r' + k) n).
Proof.
  intros Hn Hrec Hsum. rewrite josephus_call.
  rewrite (proj2 (Z.eqb_neq n 1)) by lia.
  rewrite (wrap32_small (n - 1))
    by (unfold in_int, INT_MIN, INT_MAX in *; lia).
  rewrite Hrec, (wrap32_small _ Hsum). reflexivity.
Qed.

(** The recursion for [m + 1] people returns within [m + 1] calls, and
    its value has the sign of the step and is smaller than the number of
    people. *)
Lemma josephus_returns m k :
  in_int k -> in_int (Z.of_nat (S m) + Z.abs k) ->
  exists r, josephus (S m) (Z.of_nat (S m)) k = Some r
            /\ Z.abs r < Z.of_nat (S m)
            /\ (0 <= k -> 0 <= r)
            /\ (k <= 0 -> r <= 0).
Proof.
  intros Hk Hsum. induction m as [| m IH].
  - exists 0. cbn. split; [reflexivity | lia].
  - destruct IH as (r' & Hrec & Hr' & Hpos & Hneg).
    { unfold in_int, INT_MIN, INT_MAX in *. lia. }
    assert (Hin : in_int (r' + k))
      by (unfold in_int, INT_MIN, INT_MAX in *; lia).
    exists (Z.rem (r' + k) (Z.of_nat (S (S m)))).
    split; [|split; [|split]].
    + apply josephus_unfold.
      * unfold in_int, INT_MIN, INT_MAX in *. lia.
      * replace (Z.of_nat (S (S m)) - 1) with (Z.of_nat (S m)) by lia.
        exact Hrec.
      * exact Hin.
    + pose proof (Z.rem_bound_abs (r' + k) (Z.of_nat (S (S m)))
                    ltac:(lia)) as Hb.
      lia.
    + intros H. apply Z.rem_nonneg; lia.
    + intros H. apply Z.rem_nonpos; lia.
Qed.

End JosephusRecursion.

Section JosephusGame.

Import Josephus.

Context {A : Type}.

Lemma josephus_enough_fuel fuel extra n k r :
  josephus fuel n k = Some r -> josephus (extra + fuel) n k = Some r.
Proof.
  intros H. induction extra as [| e IH]; [exact H|].
  apply josephus_more_fuel. exact IH.
Qed.

(** The circle after one removal, listed from the next start: its
    position [j] is the position [i + 1 + j], around the circle, of the
    one before. *)
Lemma rotate_nth_error (l : list A) i j :
  (i < length l)%nat -> (j < length l - 1)%nat ->
  nth_error (skipn (S i) l ++ firstn i l) j
  = nth_error l ((S i + j) mod length l).
Proof.
  intros Hi Hj.
  rewrite nth_error_app, length_skipn.
  destruct (Nat.ltb_spec j (length l - S i)) as [Hlt | Hge].
  - rewrite nth_error_skipn, Nat.mod_small by lia. reflexivity.
  - rewrite nth_error_firstn.
    destruct (Nat.ltb_spec (j - (length l - S i)) i) as [_ | Hbad]; [|lia].
    f_equal.
    apply (Nat.mod_unique (S i + j) (length l) 1); lia.
Qed.

Lemma length_after_removal (l : list A) i :
  (i < length l)%nat ->
  length (skipn (S i) l ++ firstn i l) = (length l - 1)%nat.
Proof.
  intros Hi. rewrite length_app, length_skipn, length_firstn. lia.
Qed.

Lemma survivor_position m k : forall circle : list A,
  length circle = S m ->
  1 <= k -> Z.of_nat (S m) + k <= INT_MAX ->
  exists r, josephus (S m) (Z.of_nat (S m)) k = Some r
            /\ 0 <= r < Z.of_nat (S m)
            /\ hd_error (eliminate m k circle)
               = nth_error circle (Z.to_nat r).
Proof.
  induction m as [| m IH]; intros circle Hlen Hk Hsum.
  - exists 0. split; [reflexivity|]. split; [lia|].
    destruct circle as [| x [| y rest]]; try discriminate. reflexivity.
  - cbn [eliminate]. rewrite Hlen.
    set (n := Z.of_nat (S (S m))).
    set (i := Z.to_nat ((k - 1) mod n)).
    assert (Hn : 2 <= n) by (unfold n; lia).
    pose proof (Z.mod_pos_bound (k - 1) n ltac:(lia)) as Hmod.
    assert (Hi : (i < length circle)%nat) by (unfold i; lia).
    destruct (IH (skipn (S i) circle ++ firstn i circle))
      as (r' & Hrec & Hr' & Hhd).
    { rewrite length_after_removal by exact Hi. lia. }
    { exact Hk. }
    { lia. }
    exists (Z.rem (r' + k) n).
    assert (Hrem : Z.rem (r' + k) n = (r' + k) mod n)
      by (apply Z.rem_mod_nonneg; lia).
    pose proof (Z.mod_pos_bound (r' + k) n ltac:(lia)) as Hres.
    split; [|split].
    + apply josephus_unfold.
      * unfold INT_MAX in *. lia.
      * replace (n - 1) with (Z.of_nat (S m)) by (unfold n; lia).
        exact Hrec.
      * unfold in_int, INT_MIN, INT_MAX in *. lia.
    + rewrite Hrem. exact Hres.
    + rewrite Hhd, rotate_nth_error by lia.
      f_equal. rewrite Hlen.
      apply Nat2Z.inj.
      rewrite Nat2Z.inj_mod, Z2Nat.id by lia.
      fold n. rewrite Hrem.
      replace (Z.of_nat (S i + Z.to_nat r'))
        with ((k - 1) mod n + (1 + r')) by (unfold i; lia).
      rewrite Z.add_mod_idemp_l by lia.
      f_equal. lia.
Qed.

End JosephusGame.

(** X6. For [n >= 1] people and a step [k >= 0] with [n + k <= INT_MAX],
    [josephus(n, k)] returns, after a recursion of depth [n], an index
    between 0 and [n - 1]. *)
Theorem josephus_index_in_range (n k : Z) :
  1 <= n -> 0 <= k -> n + k <= INT_MAX ->
  exists r,
    (forall fuel, (Z.to_nat n <= fuel)%nat ->
       Josephus.josephus fuel n k = Some r)
    /\ 0 <= r < n.
Proof.
  intros Hn Hk Hsum.
  destruct (josephus_returns (Z.to_nat n - 1) k) as (r & Hr & Habs & Hpos & _).
  - unfold in_int, INT_MIN, INT_MAX in *. lia.
  - unfold in_int, INT_MIN, INT_MAX in *. lia.
  - replace (S (Z.to_nat n - 1)) with (Z.to_nat n) in * by lia.
    rewrite Z2Nat.id in * by lia.
    exists r. split; [|lia].
    intros fuel Hfuel.
    replace fuel with ((fuel - Z.to_nat n) + Z.to_nat n)%nat by lia.
    apply josephus_enough_fuel. exact Hr.
Qed.

Lemma josephus_index_in_range_witness :
  (1 <= 7 /\ 0 <= 3 /\ 7 + 3 <= INT_MAX)
  /\ exists r, Josephus.josephus 7 7 3 = Some r /\ 0 <= r < 7.
Proof.
  assert (H1 : 1 <= 7) by lia.
  assert (H2 : 0 <= 3) by lia.
  assert (H3 : 7 + 3 <= INT_MAX) by (unfold INT_MAX; lia).
  split; [repeat split; assumption|].
  destruct (josephus_index_in_range 7 3 H1 H2 H3) as (r & Hr & Hrange).
  exists r. split; [apply (Hr 7%nat); simpl; lia | exact Hrange].
Defined.

(** X7. With a step [k <= 0] (and [n - k <= INT_MAX]) the value returned
    is never positive: it lies between [-(n - 1)] and 0, so it is an index
    of the circle only when it is 0. *)
Theorem josephus_nonpositive_step (n k : Z) :
  1 <= n -> k <= 0 -> n - k <= INT_MAX ->
  exists r, Josephus.josephus (Z.to_nat n) n k = Some r /\ - n < r <= 0.
Proof.
  intros Hn Hk Hsum.
  destruct (josephus_returns (Z.to_nat n - 1) k) as (r & Hr & Habs & _ & Hneg).
  - unfold in_int, INT_MIN, INT_MAX in *. lia.
  - unfold in_int, INT_MIN, INT_MAX in *. lia.
  - replace (S (Z.to_nat n - 1)) with (Z.to_nat n) in * by lia.
    rewrite Z2Nat.id in * by lia.
    exists r. split; [exact Hr | lia].
Qed.

Lemma josephus_nonpositive_step_witness :
  (1 <= 2 /\ -1 <= 0 /\ 2 - -1 <= INT_MAX)
  /\ exists r, Josephus.josephus (Z.to_nat 2) 2 (-1) = Some r /\ - 2 < r <= 0.
Proof.
  assert (H1 : 1 <= 2) by lia.
  assert (H2 : -1 <= 0) by lia.
  assert (H3 : 2 - -1 <= INT_MAX) by (unfold INT_MAX; lia).
  split; [repeat split; assumption|].
  apply (josephus_nonpositive_step 2 (-1) H1 H2 H3).
Defined.

(** X8. With the step 1 the value returned is [n - 1], the last
    position. *)
Theorem josephus_step_one (n : Z) :
  1 <= n -> n < INT_MAX ->
  Josephus.josephus (Z.to_nat n) n 1 = Some (n - 1).
Proof.
  intros Hn Hmax.
  assert (H : forall m, Z.of_nat (S m) < INT_MAX ->
            Josephus.josephus (S m) (Z.of_nat (S m)) 1
            = Some (Z.of_nat (S m) - 1)).
  { induction m as [| m IH]; intros Hm; [reflexivity|].
    rewrite (josephus_unfold (S m) (Z.of_nat (S (S m))) 1
               (Z.of_nat (S m) - 1)).
    - f_equal. rewrite Z.rem_small; lia.
    - unfold INT_MAX in *. lia.
    - replace (Z.of_nat (S (S m)) - 1) with (Z.of_nat (S m)) by lia.
      apply IH. lia.
    - unfold in_int, INT_MIN, INT_MAX in *. lia. }
  specialize (H (Z.to_nat n - 1)%nat).
  replace (S (Z.to_nat n - 1)) with (Z.to_nat n) in H by lia.
  rewrite Z2Nat.id in H by lia.
  apply H. exact Hmax.
Qed.

Lemma josephus_step_one_witness :
  (1 <= 5 /\ 5 < INT_MAX) /\ Josephus.josephus (Z.to_nat 5) 5 1 = Some (5 - 1).
Proof.
  assert (H1 : 1 <= 5) by lia.
  assert (H2 : 5 < INT_MAX) by (unfold INT_MAX; lia).
  split; [split; assumption | apply (josephus_step_one 5 H1 H2)].
Defined.

(** X9. For [INT_MIN <= n <= 0], [josephus(n, k)] does not return within
    [n - INT_MIN + 1] nested calls: their arguments [n], [n - 1], ...,
    [INT_MIN] all differ from 1, the base case. *)
Theorem josephus_no_base_case (fuel : nat) (n k : Z) :
  INT_MIN <= n <= 0 -> Z.of_nat fuel <= n - INT_MIN + 1 ->
  Josephus.josephus fuel n k = None.
Proof.
  revert n. induction fuel as [| f IH]; intros n Hn Hfuel; [reflexivity|].
  rewrite josephus_call.
  rewrite (proj2 (Z.eqb_neq n 1)) by lia.
  destruct f as [| f']; [reflexivity|].
  rewrite (wrap32_small (n - 1))
    by (unfold in_int, INT_MIN, INT_MAX in *; lia).
  rewrite IH; [reflexivity | lia | lia].
Qed.

Lemma josephus_no_base_case_witness :
  (INT_MIN <= 0 <= 0 /\ Z.of_nat 1000 <= 0 - INT_MIN + 1)
  /\ Josephus.josephus 1000 0 3 = None.
Proof.
  assert (H1 : INT_MIN <= 0 <= 0) by (unfold INT_MIN; lia).
  assert (H2 : Z.of_nat 1000 <= 0 - INT_MIN + 1) by (unfold INT_MIN; lia).
  split; [split; assumption | apply (josephus_no_base_case 1000 0 3 H1 H2)].
Defined.

(** X10. For a step [k >= 1], [josephus(n, k)] is the position, in a
    circle of [n] people listed from the one the count starts at, of the
    one who is left when every [k]-th person is removed in turn. *)
Theorem josephus_is_survivor {A : Type} (circle : list A) (k : Z) :
  circle <> [] -> 1 <= k -> Z.of_nat (length circle) + k <= INT_MAX ->
  exists r,
    Josephus.josephus (length circle) (Z.of_nat (length circle)) k = Some r
    /\ 0 <= r < Z.of_nat (length circle)
    /\ Josephus.survivor k circle = nth_error circle (Z.to_nat r).
Proof.
  intros Hne Hk Hsum.
  destruct circle as [| x rest]; [contradiction|].
  unfold Josephus.survivor.
  replace (length (x :: rest) - 1)%nat with (length rest) by (simpl; lia).
  apply survivor_position; [reflexivity | exact Hk | exact Hsum].
Qed.

Lemma josephus_is_survivor_witness :
  ([10; 20; 30; 40; 50] <> []
   /\ 1 <= 2 /\ Z.of_nat (length [10; 20; 30; 40; 50]%Z) + 2 <= INT_MAX)
  /\ exists r,
       Josephus.josephus 5 5 2 = Some r
       /\ Josephus.survivor 2 [10; 20; 30; 40; 50]
          = nth_error [10; 20; 30; 40; 50] (Z.to_nat r).
Proof.
  assert (H1 : [10; 20; 30; 40; 50] <> []) by discriminate.
  assert (H2 : 1 <= 2) by lia.
  assert (H3 : Z.of_nat (length [10; 20; 30; 40; 50]) + 2 <= INT_MAX)
    by (unfold INT_MAX; simpl; lia).
  split; [repeat split; assumption|].
  destruct (josephus_is_survivor [10; 20; 30; 40; 50] 2 H1 H2 H3)
    as (r & Hr & _ & Hs).
  exists r. split; [exact Hr | exact Hs].
Defined.

(** ** Decimal to binary *)

Section Binary.

Import DecimalToBinary.

Lemma decimalToBinary_zero : decimalToBinary 0 = [].
Proof. reflexivity. Qed.

Lemma decimalToBinary_nonzero n :
  n <> 0 ->
  decimalToBinary n = decimalToBinary (Z.quot n 2) ++ [Z.rem n 2].
Proof.
  intros Hn. rewrite decimalToBinary_equation_1 at 1.
  destruct (Z.eq_dec n 0); [contradiction | reflexivity].
Qed.

(** Induction along the calls of [decimalToBinary]. *)
Lemma halving_induction (P : Z -> Prop) :
  P 0 -> (forall n, n <> 0 -> P (Z.quot n 2) -> P n) -> forall n, P n.
Proof.
  intros H0 Hstep.
  assert (H : forall m n, (Z.abs_nat n < m)%nat -> P n).
  { induction m as [| m IH]; intros n Hm; [lia|].
    destruct (Z.eq_dec n 0) as [-> | Hne]; [exact H0|].
    apply Hstep; [exact Hne|]. apply IH.
    Z.to_euclidean_division_equations. lia. }
  intros n. apply (H (S (Z.abs_nat n))). lia.
Qed.

Lemma value_of_app digits d :
  value_of (digits ++ [d]) = 2 * value_of digits + d.
Proof. unfold value_of. rewrite fold_left_app. reflexivity. Qed.

Lemma string_app_nil_r (s : string) : String.append s EmptyString = s.
Proof. induction s as [| c s IH]; simpl; [|rewrite IH]; reflexivity. Qed.

Lemma string_app_assoc (s1 s2 s3 : string) :
  String.append (String.append s1 s2) s3
  = String.append s1 (String.append s2 s3).
Proof. induction s1 as [| c s IH]; simpl; [|rewrite IH]; reflexivity. Qed.

Lemma written_app values d :
  written (values ++ [d]) = String.append (written values) (print_int d).
Proof.
  unfold written. induction values as [| v rest IH]; simpl.
  - apply string_app_nil_r.
  - rewrite IH. symmetry. apply string_app_assoc.
Qed.

Lemma read_binary_from_app s1 s2 : forall acc,
  read_binary_from acc (String.append s1 s2)
  = read_binary_from (read_binary_from acc s1) s2.
Proof.
  induction s1 as [| c s IH]; intros acc; simpl; [reflexivity | apply IH].
Qed.

Lemma read_digit_zero acc : read_binary_from acc (print_int 0) = 2 * acc + 0.
Proof. reflexivity. Qed.

Lemma read_digit_one acc : read_binary_from acc (print_int 1) = 2 * acc + 1.
Proof. reflexivity. Qed.

Lemma list_ascii_of_string_app s1 s2 :
  list_ascii_of_string (String.append s1 s2)
  = list_ascii_of_string s1 ++ list_ascii_of_string s2.
Proof. induction s1 as [| c s IH]; simpl; [|rewrite IH]; reflexivity. Qed.

Lemma sign_of_half n :
  Z.quot n 2 <> 0 -> Z.sgn (Z.quot n 2) = Z.sgn n.
Proof. intros H. Z.to_euclidean_division_equations. lia. Qed.

Lemma rem_2_cases n : Z.rem n 2 = 0 \/ Z.rem n 2 = Z.sgn n.
Proof. Z.to_euclidean_division_equations. lia. Qed.

(** The text of a non-negative number: one character per value, and the
    number read back. *)
Lemma written_nonneg n :
  0 <= n ->
  read_binary (written (decimalToBinary n)) = n
  /\ list_ascii_of_string (written (decimalToBinary n))
     = map (fun d => if d =? 0 then "0"%char else "1"%char)
         (decimalToBinary n).
Proof.
  induction n as [| n Hn IH] using halving_induction;
    [intros _; split; reflexivity|].
  intros Hpos.
  assert (Hq : 0 <= Z.quot n 2) by (Z.to_euclidean_division_equations; lia).
  destruct (IH Hq) as [Hread Htext].
  rewrite (decimalToBinary_nonzero n Hn), written_app.
  assert (Hd : Z.rem n 2 = 0 \/ Z.rem n 2 = 1)
    by (Z.to_euclidean_division_equations; lia).
  pose proof (Z.quot_rem' n 2) as Hdiv.
  split.
  - unfold read_binary in *.
    rewrite read_binary_from_app, Hread.
    destruct Hd as [Hd | Hd]; rewrite Hd in *;
      [rewrite read_digit_zero | rewrite read_digit_one]; lia.
  - rewrite list_ascii_of_string_app, map_app, Htext.
    destruct Hd as [-> | ->]; reflexivity.
Qed.


Lemma written_nonempty n : 0 < n -> written (decimalToBinary n) <> EmptyString.
Proof.
  intros Hn Hempty.
  destruct (written_nonneg n ltac:(lia)) as [_ Htext].
  rewrite Hempty, (decimalToBinary_nonzero n) in Htext by lia.
  rewrite map_app in Htext. simpl in Htext.
  symmetry in Htext. apply app_eq_nil in Htext.
  destruct Htext as [_ Htext]. discriminate.
Qed.

End Binary.



(** X13. For [n <> 0] the first value written is the sign of [n], so
    there is no leading zero, and [log2 |n| + 1] values are written. *)
Theorem decimalToBinary_leading_and_length (n : Z) :
  n <> 0 ->
  hd_error (DecimalToBinary.decimalToBinary n) = Some (Z.sgn n)
  /\ Z.of_nat (length (DecimalToBinary.decimalToBinary n))
     = Z.log2 (Z.abs n) + 1.
Proof.
  induction n as [| n Hn IH] using halving_induction; [contradiction|].
  intros _. rewrite (decimalToBinary_nonzero n Hn).
  destruct (Z.eq_dec (Z.quot n 2) 0) as [Hz | Hnz].
  - assert (Hone : Z.abs n = 1)
      by (revert Hz; Z.to_euclidean_division_equations; lia).
    assert (Hrem : Z.rem n 2 = Z.sgn n)
      by (revert Hz; Z.to_euclidean_division_equations; lia).
    rewrite Hz, Hrem, Hone. split; reflexivity.
  - destruct (IH Hnz) as [Hhd Hlen]. split.
    + destruct (DecimalToBinary.decimalToBinary (Z.quot n 2)) as [| d rest];
        [discriminate|].
      simpl in *. rewrite <- (sign_of_half n Hnz). exact Hhd.
    + rewrite length_app, Nat2Z.inj_add, Hlen. simpl length.
      assert (Hq : 0 < Z.abs (Z.quot n 2)) by lia.
      pose proof (Z.log2_spec _ Hq) as Hspec.
      pose proof (Z.log2_nonneg (Z.abs (Z.quot n 2))) as Hnn.
      set (b := Z.log2 (Z.abs (Z.quot n 2))) in *.
      assert (Hab : 2 * Z.abs (Z.quot n 2) <= Z.abs n
                    < 2 * Z.abs (Z.quot n 2) + 2)
        by (Z.to_euclidean_division_equations; lia).
      rewrite (Z.log2_unique (Z.abs n) (b + 1)); [lia | lia |].
      replace (b + 1) with (Z.succ b) by lia.
      rewrite (Z.pow_succ_r 2 (Z.succ b)) by lia.
      rewrite (Z.pow_succ_r 2 b) in * by lia.
      clearbody b. clear - Hspec Hab. lia.
Qed.

Lemma decimalToBinary_leading_and_length_witness :
  10 <> 0
  /\ hd_error (DecimalToBinary.decimalToBinary 10) = Some (Z.sgn 10).
Proof.
  assert (H : 10 <> 0) by discriminate.
  split; [exact H | apply (decimalToBinary_leading_and_length 10 H)].
Defined.

(** X14. For [n >= 0] the text written on [cout] has one character, 0
    or 1, for each value written, and read back as a binary numeral it
    gives [n]. *)
Theorem decimalToBinary_text_round_trip (n : Z) :
  0 <= n ->
  DecimalToBinary.read_binary
    (DecimalToBinary.written (DecimalToBinary.decimalToBinary n)) = n
  /\ list_ascii_of_string
       (DecimalToBinary.written (DecimalToBinary.decimalToBinary n))
     = map (fun d => if d =? 0 then "0"%char else "1"%char)
         (DecimalToBinary.decimalToBinary n).
Proof. apply written_nonneg. Qed.

Lemma decimalToBinary_text_round_trip_witness :
  0 <= 10
  /\ DecimalToBinary.read_binary
       (DecimalToBinary.written (DecimalToBinary.decimalToBinary 10)) = 10.
Proof.
  assert (H : 0 <= 10) by lia.
  split; [exact H | apply (decimalToBinary_text_round_trip 10 H)].
Defined.

(** X15. When the input is the decimal numeral of [typed >= 0], [main]
    reads [num], which is [typed] or [INT_MAX] when [typed] is larger,
    and writes the prompt, its heading (none when [num] is 0), a binary
    numeral and the end of line.  The numeral is not empty, is made of
    the characters 0 and 1 only, and its value is [num]; for 0 it is the
    0 that [main] writes itself, where [decimalToBinary] writes
    nothing. *)
Theorem main_writes_binary_numeral (typed : Z) :
  0 <= typed ->
  let num := Z.min INT_MAX typed in
  exists digits,
    DecimalToBinary.main_output typed
    = String.append "Enter a decimal number: "
        (String.append
           (String.append
              (if num =? 0 then EmptyString
               else ("Binary representation of " ++ print_int num
                     ++ " is: ")%string)
              digits)
           endl)
    /\ digits <> EmptyString
    /\ Forall (fun c => c = "0"%char \/ c = "1"%char)
         (list_ascii_of_string digits)
    /\ DecimalToBinary.read_binary digits = num.
Proof.
  intros Htyped num.
  assert (Hnum : 0 <= num) by (unfold num, INT_MAX; lia).
  unfold DecimalToBinary.main_output.
  replace (DecimalToBinary.cin_int typed) with num
    by (unfold DecimalToBinary.cin_int, num, INT_MIN, INT_MAX; lia).
  cbv zeta.
  destruct (Z.eqb_spec num 0) as [Hz | Hne].
  - exists "0"%string. rewrite Hz.
    split; [reflexivity|]. split; [discriminate|].
    split; [|reflexivity].
    repeat constructor.
  - exists (DecimalToBinary.written (DecimalToBinary.decimalToBinary num)).
    destruct (written_nonneg num Hnum) as [Hread Htext].
    split; [|split; [|split]].
    + do 2 f_equal. rewrite !string_app_assoc. reflexivity.
    + apply written_nonempty. lia.
    + rewrite Htext. apply Forall_map. apply Forall_forall.
      intros d _. destruct (d =? 0); auto.
    + exact Hread.
Qed.

Lemma main_writes_binary_numeral_witness :
  0 <= 6
  /\ exists digits,
       DecimalToBinary.main_output 6
       = String.append "Enter a decimal number: "
           (String.append
              (String.append "Binary representation of 6 is: " digits)
              endl)
       /\ Forall (fun c => c = "0"%char \/ c = "1"%char)
            (list_ascii_of_string digits)
       /\ DecimalToBinary.read_binary digits = 6.
Proof.
  assert (H : 0 <= 6) by lia.
  split; [exact H|].
  destruct (main_writes_binary_numeral 6 H)
    as (digits & Hout & _ & Hchars & Hval).
  exists digits. split; [exact Hout | split; [exact Hchars | exact Hval]].
Defined.
